(** * Model names and digests: a shallow embedding of package [model]

    The Go package parses, validates and formats model names of the form
    [host/namespace/model:tag@digest] and digests of the form
    [sha256-<hex>].  Go strings are byte sequences: they are embedded as
    lists of [ascii] (one [ascii] is exactly one byte).  Functions that can
    panic at run time return a [result]. *)

From Stdlib Require Import Ascii String List ZArith NArith Bool Arith Lia.
Import ListNotations.

Local Open Scope char_scope.
Local Open Scope list_scope.
Local Open Scope nat_scope.

(** ** Bytes and strings *)

Abbreviation byte := ascii (only parsing).
Abbreviation str := (list ascii) (only parsing).

(** A Go string literal. *)
Definition lit (s : string) : str := list_ascii_of_string s.

(** The numeric value of a byte, for the comparisons [c >= 'A'] etc. *)
Definition ord (c : byte) : N := N_of_ascii c.

(** [s == ""]. *)
Definition isEmpty (s : str) : bool :=
  match s with [] => true | _ :: _ => false end.

(** [a == b] on strings. *)
Fixpoint str_eqb (a b : str) : bool :=
  match a, b with
  | [], [] => true
  | x :: a', y :: b' => Ascii.eqb x y && str_eqb a' b'
  | _, _ => false
  end.

(** Run-time faults of Go code. *)
Inductive panic := IndexOutOfRange (index len : nat).

Inductive result (A : Type) : Type :=
| Ok (a : A)
| Panic (p : panic).
Arguments Ok {A} a.
Arguments Panic {A} p.

Definition bind {A B} (r : result A) (k : A -> result B) : result B :=
  match r with
  | Ok a => k a
  | Panic p => Panic p
  end.

Notation "x <- r ;; k" := (bind r (fun x => k))
  (at level 61, r at next level, right associativity).

(** ** Go library functions used by the package *)

(** [strings.HasPrefix]. *)
Fixpoint HasPrefix (s prefix : str) {struct prefix} : bool :=
  match prefix, s with
  | [], _ => true
  | p :: prefix', c :: s' => Ascii.eqb c p && HasPrefix s' prefix'
  | _ :: _, [] => false
  end.

(** [strings.LastIndex(s, substr)]: the index of the last instance of
    [substr] in [s], or [-1] when there is none. *)
Fixpoint LastIndex (s substr : str) : Z :=
  match s with
  | [] => if HasPrefix [] substr then 0%Z else (-1)%Z
  | _ :: s' =>
      let i := LastIndex s' substr in
      if (0 <=? i)%Z then (i + 1)%Z
      else if HasPrefix s substr then 0%Z else (-1)%Z
  end.

(** [cmp.Or(vals...)]: the first argument that is not the zero value
    (here: the empty string), or the zero value. *)
Fixpoint cmp_Or (vals : list str) : str :=
  match vals with
  | [] => []
  | v :: rest => if isEmpty v then cmp_Or rest else v
  end.

(** The width in bytes of the first UTF-8 sequence of [s], as
    [utf8.DecodeRuneInString] and the [for i := range s] loop compute it:
    an ASCII byte, and any byte that does not start a well-formed sequence,
    has width 1. *)
Definition inRange (lo hi : N) (c : byte) : bool :=
  (lo <=? ord c)%N && (ord c <=? hi)%N.

(** The table [first] of package utf8, with its accept ranges: the size of
    the sequence a leading byte announces and the range of its second byte. *)
Definition utf8First (s0 : byte) : option (nat * N * N) :=
  let x := ord s0 in
  if (x <? 0xC2)%N then None
  else if (x <=? 0xDF)%N then Some (2, 0x80%N, 0xBF%N)
  else if (x =? 0xE0)%N then Some (3, 0xA0%N, 0xBF%N)
  else if (x <=? 0xEC)%N then Some (3, 0x80%N, 0xBF%N)
  else if (x =? 0xED)%N then Some (3, 0x80%N, 0x9F%N)
  else if (x <=? 0xEF)%N then Some (3, 0x80%N, 0xBF%N)
  else if (x =? 0xF0)%N then Some (4, 0x90%N, 0xBF%N)
  else if (x <=? 0xF3)%N then Some (4, 0x80%N, 0xBF%N)
  else if (x =? 0xF4)%N then Some (4, 0x80%N, 0x8F%N)
  else None.

Definition runeWidth (s : str) : nat :=
  match s with
  | [] => 0
  | s0 :: t =>
      if (ord s0 <? 0x80)%N then 1
      else
        match utf8First s0 with
        | None => 1
        | Some (sz, lo, hi) =>
            if length s <? sz then 1
            else
              match t with
              | [] => 1
              | s1 :: t1 =>
                  if negb (inRange lo hi s1) then 1
                  else if sz <=? 2 then 2
                  else
                    match t1 with
                    | [] => 1
                    | s2 :: t2 =>
                        if negb (inRange 0x80 0xBF s2) then 1
                        else if sz <=? 3 then 3
                        else
                          match t2 with
                          | [] => 1
                          | s3 :: _ =>
                              if negb (inRange 0x80 0xBF s3) then 1 else 4
                          end
                    end
              end
        end
  end.

(** The iterations of [for i := range s]: the pairs [(i, s[i])] the loop
    body sees, [i] being the byte index at which each UTF-8 sequence starts.
    [skip] counts the bytes still to pass over inside the current sequence. *)
Fixpoint rangeFrom (i skip : nat) (s : str) : list (nat * byte) :=
  match s with
  | [] => []
  | c :: s' =>
      match skip with
      | 0 => (i, c) :: rangeFrom (S i) (pred (runeWidth s)) s'
      | S k => rangeFrom (S i) k s'
      end
  end.

Definition rangeString (s : str) : list (nat * byte) := rangeFrom 0 0 s.

(** ** The missing-part marker and default name *)

Definition MissingPart : str := lit "!MISSING!".

Record Name : Type := mkName {
  Host : str;
  Namespace : str;
  Model : str;
  Tag : str;
  RawDigest : str
}.

(** [var n Name]: the zero value. *)
Definition zeroName : Name := mkName [] [] [] [] [].

(** Assignments to one field of a [Name]. *)
Definition setHost (n : Name) (v : str) : Name :=
  mkName v (Namespace n) (Model n) (Tag n) (RawDigest n).
Definition setNamespace (n : Name) (v : str) : Name :=
  mkName (Host n) v (Model n) (Tag n) (RawDigest n).
Definition setModel (n : Name) (v : str) : Name :=
  mkName (Host n) (Namespace n) v (Tag n) (RawDigest n).
Definition setTag (n : Name) (v : str) : Name :=
  mkName (Host n) (Namespace n) (Model n) v (RawDigest n).
Definition setRawDigest (n : Name) (v : str) : Name :=
  mkName (Host n) (Namespace n) (Model n) (Tag n) v.

Definition DefaultName : Name :=
  mkName (lit "registry.ollama.ai") (lit "library") [] (lit "latest") [].

(** ** Part kinds and the part validator *)

Inductive partKind : Type :=
| kindHost
| kindNamespace
| kindModel
| kindTag
| kindDigest.

(** The conversion [partKind(i)] of the loop index in [Name.IsValid]; the
    constants are numbered by [iota] from 0. *)
Definition partKind_of_index (i : nat) : partKind :=
  match i with
  | 0 => kindHost
  | 1 => kindNamespace
  | 2 => kindModel
  | 3 => kindTag
  | _ => kindDigest
  end.

Definition partKind_eqb (a b : partKind) : bool :=
  match a, b with
  | kindHost, kindHost
  | kindNamespace, kindNamespace
  | kindModel, kindModel
  | kindTag, kindTag
  | kindDigest, kindDigest => true
  | _, _ => false
  end.

Definition isValidLen (kind : partKind) (s : str) : bool :=
  match kind with
  | kindHost => (1 <=? length s) && (length s <=? 350)
  | kindTag => (1 <=? length s) && (length s <=? 80)
  | _ => (2 <=? length s) && (length s <=? 80)
  end.

Definition isAlphanumeric (c : byte) : bool :=
  (ord "A" <=? ord c)%N && (ord c <=? ord "Z")%N
  || (ord "a" <=? ord c)%N && (ord c <=? ord "z")%N
  || (ord "0" <=? ord c)%N && (ord c <=? ord "9")%N.

(** The body of the loop of [isValidPart] at index [i] and byte [c = s[i]]:
    [false] where the body returns false, [true] where it goes on. *)
Definition partByteOk (kind : partKind) (i : nat) (c : byte) : bool :=
  if i =? 0 then isAlphanumeric c
  else if Ascii.eqb c "_" || Ascii.eqb c "-" then true
  else if Ascii.eqb c "." then negb (partKind_eqb kind kindNamespace)
  else if Ascii.eqb c ":" then partKind_eqb kind kindHost
  else isAlphanumeric c.

Definition isValidPart (kind : partKind) (s : str) : bool :=
  if negb (isValidLen kind s) then false
  else forallb (fun ic => partByteOk kind (fst ic) (snd ic)) (rangeString s).

Definition IsValidShort (namespace model : str) : bool :=
  isValidPart kindNamespace namespace && isValidPart kindModel model.

(** ** Cutting at separators *)

Definition cutLast (s sep : str) : str * str * bool :=
  let i := LastIndex s sep in
  if (0 <=? i)%Z then
    (firstn (Z.to_nat i) s,
     skipn (Z.to_nat (i + Z.of_nat (length sep))) s,
     true)
  else (s, [], false).

Definition cutPromised (s sep : str) : str * str * bool :=
  let '(before, after, ok) := cutLast s sep in
  if negb ok then (before, after, false)
  else (cmp_Or [before; MissingPart], cmp_Or [after; MissingPart], true).

(** ** Names *)

Module Name.

Definition Merge (n o : Name) : Name :=
  let n := setHost n (cmp_Or [Host n; Host o]) in
  let n := setNamespace n (cmp_Or [Namespace n; Namespace o]) in
  let n := setTag n (cmp_Or [Tag n; Tag o]) in
  n.

(** The loop [for i, part := range parts] of [IsValid], from index [i]. *)
Fixpoint partsFrom (i : nat) (parts : list str) : bool :=
  match parts with
  | [] => true
  | part :: rest =>
      if negb (isEmpty part) && negb (isValidPart (partKind_of_index i) part)
      then false
      else partsFrom (S i) rest
  end.

Definition IsValid (n : Name) : bool :=
  if isEmpty (Model n) && isEmpty (RawDigest n) then false
  else partsFrom 0 [Host n; Namespace n; Model n; Tag n; RawDigest n].

(** The [strings.Builder] is the string written so far. *)
Definition String (n : Name) : str :=
  let b := [] in
  let b := if negb (isEmpty (Host n)) then b ++ Host n ++ ["/"] else b in
  let b :=
    if negb (isEmpty (Namespace n)) then b ++ Namespace n ++ ["/"] else b in
  let b := b ++ Model n in
  let b := if negb (isEmpty (Tag n)) then b ++ [":"] ++ Tag n else b in
  let b :=
    if negb (isEmpty (RawDigest n)) then b ++ ["@"] ++ RawDigest n else b in
  b.

End Name.

Definition ParseNameNoDefaults (s : str) : Name :=
  let n := zeroName in
  let '(s, rawDigest, promised) := cutLast s (lit "@") in
  let n := setRawDigest n rawDigest in
  let n :=
    if promised && isEmpty (RawDigest n) then setRawDigest n MissingPart
    else n in
  let '(s, tag, _) := cutPromised s (lit ":") in
  let n := setTag n tag in
  let '(s, model, promised) := cutPromised s (lit "/") in
  let n := setModel n model in
  if negb promised then setModel n s
  else
    let '(s, namespace, promised) := cutPromised s (lit "/") in
    let n := setNamespace n namespace in
    if negb promised then setNamespace n s
    else setHost n s.

Definition ParseName (s : str) : Name :=
  Name.Merge (ParseNameNoDefaults s) DefaultName.

(** ** Digests *)

Definition DigestType := Z.

(** [DigestTypeSHA256 DigestType = iota + 1]. *)
Definition DigestTypeSHA256 : DigestType := 1%Z.

Definition DigestType_String (t : DigestType) : str :=
  if (t =? DigestTypeSHA256)%Z then lit "sha256" else lit "unknown".

(** [Hash] is a [[32]byte]: a list of 32 bytes. *)
Record Digest : Type := mkDigest {
  Type_ : DigestType;
  Hash : list byte
}.

(** [[32]byte{}]. *)
Definition zeroHash : list byte := repeat zero 32.

(** [Digest{}]. *)
Definition zeroDigest : Digest := mkDigest 0%Z zeroHash.

(** *** Package encoding/hex *)

Inductive hexError : Type :=
| InvalidByteError (c : byte)
| ErrLength.

(** The value of a hexadecimal digit, [None] for any other byte. *)
Definition fromHexChar (c : byte) : option N :=
  if inRange (ord "0") (ord "9") c then Some (ord c - ord "0")%N
  else if inRange (ord "a") (ord "f") c then Some (ord c - ord "a" + 10)%N
  else if inRange (ord "A") (ord "F") c then Some (ord c - ord "A" + 10)%N
  else None.

(** The assignment [dst[i] = v] to a slice: a run-time panic when [i] is
    not below [len(dst)]. *)
Definition store (dst : list byte) (i : nat) (v : byte) : result (list byte) :=
  if i <? length dst then Ok (firstn i dst ++ v :: skipn (S i) dst)
  else Panic (IndexOutOfRange i (length dst)).

(** [hex.Decode(dst, src)]: the loop takes the bytes of [src] two at a
    time and writes one byte of [dst] for each pair, without comparing [i]
    with [len(dst)]; it returns the number of bytes written and the error.
    The result carries [dst] as the call leaves it. *)
Fixpoint hexDecode (dst : list byte) (i : nat) (src : list byte)
  : result (list byte * nat * option hexError) :=
  match src with
  | p :: q :: rest =>
      match fromHexChar p with
      | None => Ok (dst, i, Some (InvalidByteError p))
      | Some a =>
          match fromHexChar q with
          | None => Ok (dst, i, Some (InvalidByteError q))
          | Some b =>
              dst' <- store dst i (ascii_of_N (N.lor (N.shiftl a 4) b)) ;;
              hexDecode dst' (S i) rest
          end
      end
  | [p] =>
      match fromHexChar p with
      | None => Ok (dst, i, Some (InvalidByteError p))
      | Some _ => Ok (dst, i, Some ErrLength)
      end
  | [] => Ok (dst, i, None)
  end.

Definition hextable : str := lit "0123456789abcdef".

(** [hex.EncodeToString(src)]. *)
Fixpoint EncodeToString (src : list byte) : str :=
  match src with
  | [] => []
  | v :: rest =>
      nth (N.to_nat (N.shiftr (ord v) 4)) hextable zero
      :: nth (N.to_nat (N.land (ord v) 0x0f)) hextable zero
      :: EncodeToString rest
  end.

Module Digest.

Definition IsValid (d : Digest) : bool :=
  if negb (Type_ d =? DigestTypeSHA256)%Z then false
  else negb (str_eqb (Hash d) zeroHash).

Definition String (d : Digest) : str :=
  let b := [] in
  let b := b ++ DigestType_String (Type_ d) in
  let b := b ++ ["-"] in
  let b := b ++ EncodeToString (Hash d) in
  b.

End Digest.

Definition ParseDigest (s : str) : result Digest :=
  let '(typ, hash, ok) := cutLast s (lit ":") in
  let '(typ, hash, ok) :=
    if negb ok then cutLast s (lit "-") else (typ, hash, ok) in
  if negb ok then Ok zeroDigest
  else if negb (str_eqb typ (lit "sha256")) then Ok zeroDigest
  else
    let d := zeroDigest in
    r <- hexDecode (Hash d) 0 hash ;;
    let '(h, n, err) := r in
    match err with
    | Some _ => Ok zeroDigest
    | None =>
        if negb (n =? 32) then Ok zeroDigest
        else Ok (mkDigest DigestTypeSHA256 h)
    end.

(** [Name.Digest]. *)
Definition Name_Digest (n : Name) : result Digest := ParseDigest (RawDigest n).

(** ** The validation rules in the words of the specification *)

Definition isAsciiLetter (c : byte) : Prop :=
  (65 <= ord c <= 90)%N \/ (97 <= ord c <= 122)%N.

Definition isAsciiDigit (c : byte) : Prop := (48 <= ord c <= 57)%N.

(** Host 1-350 bytes, tag 1-80, namespace, model and digest 2-80. *)
Definition lengthWithinBounds (k : partKind) (len : nat) : Prop :=
  match k with
  | kindHost => 1 <= len <= 350
  | kindTag => 1 <= len <= 80
  | kindNamespace | kindModel | kindDigest => 2 <= len <= 80
  end.

(** A byte after the first: a letter, a digit, ['_'] or ['-']; ['.'] except
    in a namespace; [':'] in a host only. *)
Definition laterByteAllowed (k : partKind) (c : byte) : Prop :=
  isAsciiLetter c \/ isAsciiDigit c \/ c = "_" \/ c = "-"
  \/ (c = "." /\ k <> kindNamespace)
  \/ (c = ":" /\ k = kindHost).

Definition validPartSpec (k : partKind) (s : str) : Prop :=
  lengthWithinBounds k (length s) /\
  match s with
  | [] => True
  | c :: rest =>
      (isAsciiLetter c \/ isAsciiDigit c) /\ Forall (laterByteAllowed k) rest
  end.

(** ** Hexadecimal strings *)

(** A lowercase hexadecimal digit. *)
Definition isLowerHex (c : byte) : bool :=
  inRange (ord "0") (ord "9") c || inRange (ord "a") (ord "f") c.

(** The bytes a string of hexadecimal digits denotes, two digits a byte. *)
Fixpoint hexBytes (h : str) : list byte :=
  match h with
  | p :: q :: rest =>
      match fromHexChar p, fromHexChar q with
      | Some a, Some b => ascii_of_N (N.lor (N.shiftl a 4) b) :: hexBytes rest
      | _, _ => []
      end
  | _ => []
  end.

(** ** Separators and the parts beside them *)

(** The cut of [s] at the last [c], when there is one: the separator with
    the text before it and the text after it. *)
Definition cutAt (c : byte) (s : str) : list (byte * str * str) :=
  let '(before, after, ok) := cutLast s [c] in
  if ok then [(c, before, after)] else [].

Definition beforeCut (c : byte) (s : str) : str := fst (fst (cutLast s [c])).

(** The separators a name is cut at: the last ['@'], the last [':'] before
    it, and the last two ['/'] before that. *)
Definition nameCuts (s : str) : list (byte * str * str) :=
  let s1 := beforeCut "@" s in
  let s2 := beforeCut ":" s1 in
  let s3 := beforeCut "/" s2 in
  cutAt "@" s ++ cutAt ":" s1 ++ cutAt "/" s2 ++ cutAt "/" s3.

(** [s] has a separator with nothing on one side of it. *)
Definition emptyAdjacent (s : str) : Prop :=
  exists c l r, In (c, l, r) (nameCuts s) /\ (l = [] \/ r = []).

(** [s] has a separator with nothing after it, or a [':'] or ['/'] with
    nothing before it. *)
Definition promisedMissing (s : str) : Prop :=
  exists c l r,
    In (c, l, r) (nameCuts s) /\ (r = [] \/ (l = [] /\ c <> "@")).

(** Some part of [n] is the missing-part marker. *)
Definition hasMissingPart (n : Name) : bool :=
  existsb (fun part => str_eqb part MissingPart)
    [Host n; Namespace n; Model n; Tag n; RawDigest n].

(** ** The test corpus of the package *)

Definition part80 : str := repeat "8" 80.
Definition part350 : str := repeat "3" 350.

Definition validSHA256Hex : str :=
  lit "abcdef0123456789abcdef0123456789abcdef0123456789abcdef0123456789".

(** [testCases]: name -> valid. *)
Definition testCases : list (str * bool) :=
  [ (lit "host/namespace/model:tag", true);
    (lit "host/namespace/model", true);
    (lit "namespace/model", true);
    (lit "model", true);
    (lit "@dd", true);
    (lit "model@dd", true);
    (part80 ++ lit "/" ++ part80 ++ lit "/" ++ part80 ++ lit ":" ++ part80,
     true);
    (part350 ++ lit "/" ++ part80 ++ lit "/" ++ part80 ++ lit ":" ++ part80,
     true);
    (lit "h/nn/mm:t@dd", true);
    (lit "m", false);
    (lit "n/mm:", false);
    (lit "h/n/mm:t", false);
    (lit "@t", false);
    (lit "mm@d", false);
    (lit "^", false);
    (lit "mm:", false);
    (lit "/nn/mm", false);
    (lit "//", false);
    (lit "//mm", false);
    (lit "hh//", false);
    (lit "//mm:@", false);
    (lit "00@", false);
    (lit "@", false);
    (lit "-hh/nn/mm:tt@dd", false);
    (lit "hh/-nn/mm:tt@dd", false);
    (lit "hh/nn/-mm:tt@dd", false);
    (lit "hh/nn/mm:-tt@dd", false);
    (lit "hh/nn/mm:tt@-dd", false);
    (lit "", false);
    (lit "host:https/namespace/model:tag", true);
    (lit "host/name:space/model:tag", false) ].

(** The check of [TestIsValid] on one case: the validity is the expected
    one and a valid name is written back as the input. *)
Definition checkIsValid (tc : str * bool) : bool :=
  let n := ParseNameNoDefaults (fst tc) in
  Bool.eqb (Name.IsValid n) (snd tc)
  && (if Name.IsValid n then str_eqb (Name.String n) (fst tc) else true).

(** The check of [TestParseDigest] on one case. *)
Definition checkParseDigest (tc : str * bool) : bool :=
  match ParseDigest (fst tc) with
  | Ok d => Bool.eqb (Digest.IsValid d) (snd tc)
  | Panic _ => false
  end.

(** ** The shape of a parsed name *)

(** The shape every name that comes out of the parser has: a host only
    with a namespace, a namespace or a tag only with a model, and a [':'] in
    the host only when there is a tag. *)
Definition wellShaped (n : Name) : Prop :=
  (Host n <> [] -> Namespace n <> []) /\
  (Model n = [] -> Namespace n = [] /\ Tag n = []) /\
  (Tag n = [] -> ~ In ":" (Host n)).

(** The five parts of a name, in the order of [Name.IsValid]. *)
Definition parts (n : Name) : list str :=
  [Host n; Namespace n; Model n; Tag n; RawDigest n].

(** A hexadecimal digit of either case, as [hex.Decode] accepts it. *)
Definition isHex (c : byte) : bool :=
  match fromHexChar c with Some _ => true | None => false end.

(** * Properties *)

(** ** The tests of the package hold of the embedding *)

Example TestIsValid : forallb checkIsValid testCases = true.
Proof. vm_compute. reflexivity. Qed.

Example TestParseNameDefault :
  Name.String (ParseName (lit "x")) = lit "registry.ollama.ai/library/x:latest".
Proof. vm_compute. reflexivity. Qed.

Example TestIsValidPart :
  map (fun ks => isValidPart (fst ks) (snd ks))
    [ (kindHost, lit ""); (kindHost, lit "a"); (kindHost, lit "a.");
      (kindHost, lit "a.b"); (kindHost, lit "a:123");
      (kindHost, lit "a:123/aa/bb"); (kindNamespace, lit "bb");
      (kindNamespace, lit "a."); (kindModel, lit "-h");
      (kindDigest, lit "dd") ]
  = [false; true; true; true; true; false; true; false; false; true].
Proof. vm_compute. reflexivity. Qed.

Example TestParseDigest :
  forallb checkParseDigest
    [ (lit "sha256:" ++ validSHA256Hex, true);
      (lit "sha256-" ++ validSHA256Hex, true);
      (lit "", false);
      (lit "sha134:" ++ validSHA256Hex, false);
      (lit "sha256:" ++ validSHA256Hex ++ lit "x", false);
      (lit "sha256:x" ++ validSHA256Hex, false);
      (lit "sha256-" ++ validSHA256Hex ++ lit "x", false);
      (lit "sha256-x", false) ]
  = true.
Proof. vm_compute. reflexivity. Qed.

(** ** Strings *)

Lemma isEmpty_true (s : str) : isEmpty s = true <-> s = [].
Proof. destruct s; simpl; split; congruence. Qed.

Lemma isEmpty_false (s : str) : isEmpty s = false <-> s <> [].
Proof. destruct s; simpl; split; congruence. Qed.

Lemma str_eqb_eq (a b : str) : str_eqb a b = true <-> a = b.
Proof.
  revert b; induction a as [|x a IH]; intros [|y b]; simpl;
    try (split; congruence).
  rewrite andb_true_iff, Ascii.eqb_eq, IH.
  split; [intros [-> ->]; reflexivity | intros E; inversion E; auto].
Qed.

Lemma str_eqb_neq (a b : str) : str_eqb a b = false <-> a <> b.
Proof.
  rewrite <- str_eqb_eq. destruct (str_eqb a b); split; congruence.
Qed.

Lemma cmp_Or_pair (a b : str) :
  cmp_Or [a; b] = if isEmpty a then b else a.
Proof. simpl. destruct a; simpl; [destruct b|]; reflexivity. Qed.

(** ** Name.IsValid *)

Lemma partsFrom_five (h ns m t d : str) :
  Name.partsFrom 0 [h; ns; m; t; d] = true <->
  (h <> [] -> isValidPart kindHost h = true) /\
  (ns <> [] -> isValidPart kindNamespace ns = true) /\
  (m <> [] -> isValidPart kindModel m = true) /\
  (t <> [] -> isValidPart kindTag t = true) /\
  (d <> [] -> isValidPart kindDigest d = true).
Proof.
  assert (step : forall k (p : str) (b : bool),
    (if negb (isEmpty p) && negb (isValidPart k p) then false else b) = true
    <-> (p <> [] -> isValidPart k p = true) /\ b = true).
  { intros k p b. destruct p as [|c p]; simpl.
    - split; [intros H; split; [intros C; contradiction | exact H]
             | intros [_ H]; exact H].
    - destruct (isValidPart k (c :: p)); simpl.
      + split; [intros H; split; auto | intros [_ H]; exact H].
      + split; [discriminate | intros [H _]; apply H; discriminate]. }
  unfold Name.partsFrom.
  rewrite !step. simpl partKind_of_index. tauto.
Qed.

(** What the other proofs use of a valid name. *)
Lemma IsValid_parts (n : Name) :
  Name.IsValid n = true ->
  (Model n <> [] \/ RawDigest n <> []) /\
  (Host n <> [] -> isValidPart kindHost (Host n) = true) /\
  (Namespace n <> [] -> isValidPart kindNamespace (Namespace n) = true) /\
  (Model n <> [] -> isValidPart kindModel (Model n) = true) /\
  (Tag n <> [] -> isValidPart kindTag (Tag n) = true) /\
  (RawDigest n <> [] -> isValidPart kindDigest (RawDigest n) = true).
Proof.
  unfold Name.IsValid.
  destruct (Model n) as [|c m]; destruct (RawDigest n) as [|c' d];
    cbn [isEmpty andb]; try discriminate;
    intros H; apply partsFrom_five in H;
    (split; [|exact H]); [right | left | left]; discriminate.
Qed.

(** C3: [n.IsValid()] is true exactly when the model or the raw digest is
    non-empty and every non-empty field passes the part validator of its
    own kind (host, namespace, model, tag, digest). *)
Theorem IsValid_characterisation (n : Name) :
  Name.IsValid n = true <->
  (Model n <> [] \/ RawDigest n <> []) /\
  (Host n <> [] -> isValidPart kindHost (Host n) = true) /\
  (Namespace n <> [] -> isValidPart kindNamespace (Namespace n) = true) /\
  (Model n <> [] -> isValidPart kindModel (Model n) = true) /\
  (Tag n <> [] -> isValidPart kindTag (Tag n) = true) /\
  (RawDigest n <> [] -> isValidPart kindDigest (RawDigest n) = true).
Proof.
  unfold Name.IsValid.
  destruct (isEmpty (Model n) && isEmpty (RawDigest n)) eqn:E.
  - apply andb_true_iff in E. destruct E as [E1 E2].
    apply isEmpty_true in E1, E2.
    split; [discriminate | intros [[H | H] _]; contradiction].
  - rewrite partsFrom_five.
    apply andb_false_iff in E. rewrite !isEmpty_false in E. tauto.
Qed.

(** ** Name.Merge *)

(** C8: [n.Merge(o)] takes host, namespace and tag from [n] where [n] has
    them and from [o] otherwise, and keeps the model and the raw digest of
    [n].  Both names are passed by value and the result is the only effect:
    [o] is untouched. *)
Theorem Merge_fields (n o : Name) :
  Host (Name.Merge n o) = (if isEmpty (Host n) then Host o else Host n) /\
  Namespace (Name.Merge n o)
    = (if isEmpty (Namespace n) then Namespace o else Namespace n) /\
  Tag (Name.Merge n o) = (if isEmpty (Tag n) then Tag o else Tag n) /\
  Model (Name.Merge n o) = Model n /\
  RawDigest (Name.Merge n o) = RawDigest n.
Proof.
  unfold Name.Merge.
  cbn [setHost setNamespace setTag Host Namespace Tag Model RawDigest].
  rewrite !cmp_Or_pair. repeat split.
Qed.

(** ** IsValidShort *)

Lemma IsValidShort_nonempty_namespace (namespace model : str) :
  namespace <> [] ->
  IsValidShort namespace model
  = Name.IsValid (mkName [] namespace model [] []).
Proof.
  intros Hns. unfold IsValidShort, Name.IsValid, Name.partsFrom.
  cbn [Host Namespace Model Tag RawDigest partKind_of_index isEmpty negb andb].
  destruct namespace as [|c ns]; [contradiction|].
  destruct model as [|x m]; cbn [isEmpty negb andb].
  - change (isValidPart kindModel []) with false. apply andb_false_r.
  - destruct (isValidPart kindNamespace (c :: ns)),
      (isValidPart kindModel (x :: m)); reflexivity.
Qed.

(** C10: [IsValidShort(namespace, model)] is documented as equivalent to
    [(Name{Namespace: namespace, Model: model}).IsValid()].  With an empty
    namespace and the model ["mm"] the first is false and the second true:
    [IsValid] passes over an empty namespace, [IsValidShort] validates it. *)
Theorem IsValidShort_empty_namespace_differs :
  IsValidShort [] (lit "mm") = false /\
  Name.IsValid (mkName [] [] (lit "mm") [] []) = true.
Proof. split; vm_compute; reflexivity. Qed.

(** ** Formatting a name and parsing it again *)

(** C2: a valid name need not come back from its string.  A name with a
    host and no namespace, valid for [IsValid], is written ["h/mm"], which
    parses with ["h"] as the namespace; and [ParseName("@dd")], valid with
    the default host, namespace and tag and no model, is written
    ["registry.ollama.ai/library/:latest@dd"], which parses with the
    missing-part marker as the model. *)
Theorem String_then_parse_differs :
  (let r := mkName (lit "h") [] (lit "mm") [] [] in
   Name.IsValid r = true /\
   Name.String r = lit "h/mm" /\
   ParseNameNoDefaults (Name.String r) = mkName [] (lit "h") (lit "mm") [] [] /\
   ParseNameNoDefaults (Name.String r) <> r) /\
  (let r := ParseName (lit "@dd") in
   Name.IsValid r = true /\
   Name.String r = lit "registry.ollama.ai/library/:latest@dd" /\
   Model r = [] /\
   Model (ParseNameNoDefaults (Name.String r)) = MissingPart /\
   ParseNameNoDefaults (Name.String r) <> r).
Proof.
  split; cbv zeta; repeat split; try (vm_compute; reflexivity);
    vm_compute; discriminate.
Qed.

(** ** The part validator, byte by byte *)

Lemma isAlphanumeric_spec (c : byte) :
  isAlphanumeric c = true <-> isAsciiLetter c \/ isAsciiDigit c.
Proof.
  unfold isAlphanumeric, isAsciiLetter, isAsciiDigit.
  rewrite !orb_true_iff, !andb_true_iff, !N.leb_le.
  change (ord "A") with 65%N; change (ord "Z") with 90%N.
  change (ord "a") with 97%N; change (ord "z") with 122%N.
  change (ord "0") with 48%N; change (ord "9") with 57%N.
  tauto.
Qed.

Lemma partKind_eqb_eq (a b : partKind) : partKind_eqb a b = true <-> a = b.
Proof. destruct a, b; simpl; split; congruence. Qed.

Lemma not_alnum_punct (c : byte) :
  c = "_" \/ c = "-" \/ c = "." \/ c = ":" ->
  ~ (isAsciiLetter c \/ isAsciiDigit c).
Proof.
  unfold isAsciiLetter, isAsciiDigit.
  intros [-> | [-> | [-> | ->]]]; vm_compute; intuition congruence.
Qed.

Lemma laterByte_spec (k : partKind) (i : nat) (c : byte) :
  partByteOk k (S i) c = true <-> laterByteAllowed k c.
Proof.
  unfold partByteOk, laterByteAllowed. cbn [Nat.eqb].
  destruct (Ascii.eqb_spec c "_") as [-> | N1];
    [cbn [orb]; split; [intros _; do 2 right; left|]; reflexivity|].
  destruct (Ascii.eqb_spec c "-") as [-> | N2];
    [cbn [orb]; split; [intros _; do 3 right; left|]; reflexivity|].
  cbn [orb].
  destruct (Ascii.eqb_spec c ".") as [-> | N3].
  { pose proof (not_alnum_punct "."
      (or_intror (or_intror (or_introl eq_refl)))).
    rewrite negb_true_iff, <- not_true_iff_false, partKind_eqb_eq.
    split; [tauto|].
    intros [H1 | [H1 | [H1 | [H1 | [H1 | H1]]]]];
      try tauto; try discriminate; destruct H1; discriminate. }
  destruct (Ascii.eqb_spec c ":") as [-> | N4].
  { pose proof (not_alnum_punct ":"
      (or_intror (or_intror (or_intror eq_refl)))).
    rewrite partKind_eqb_eq.
    split; [tauto|].
    intros [H1 | [H1 | [H1 | [H1 | [H1 | H1]]]]];
      try tauto; try discriminate; destruct H1; discriminate. }
  rewrite isAlphanumeric_spec. tauto.
Qed.

Lemma laterByte_ascii (k : partKind) (c : byte) :
  laterByteAllowed k c -> (ord c < 128)%N.
Proof.
  unfold laterByteAllowed, isAsciiLetter, isAsciiDigit.
  intros [H | [H | [-> | [-> | [[-> _] | [-> _]]]]]];
    try lia; vm_compute; reflexivity.
Qed.

Lemma runeWidth_ascii (c : byte) (s : str) :
  (ord c < 128)%N -> runeWidth (c :: s) = 1.
Proof.
  intros H. apply N.ltb_lt in H. unfold runeWidth. rewrite H. reflexivity.
Qed.

(** Past the first byte, the [range] loop of [isValidPart] stops at the
    first byte that is not ASCII, so it sees every byte it accepts. *)
Lemma range_later (k : partKind) (s : str) (i : nat) :
  forallb (fun ic => partByteOk k (fst ic) (snd ic)) (rangeFrom (S i) 0 s)
  = forallb (partByteOk k 1) s.
Proof.
  revert i; induction s as [|c s IH]; intros i; [reflexivity|].
  change (rangeFrom (S i) 0 (c :: s))
    with ((S i, c) :: rangeFrom (S (S i)) (pred (runeWidth (c :: s))) s).
  cbn [forallb fst snd].
  change (partByteOk k (S i) c) with (partByteOk k 1 c).
  destruct (partByteOk k 1 c) eqn:E; [|reflexivity].
  rewrite runeWidth_ascii
    by (apply (laterByte_ascii k), (laterByte_spec k 0), E).
  apply IH.
Qed.

Lemma isValidPart_bytes (k : partKind) (s : str) :
  isValidPart k s
  = isValidLen k s
    && match s with
       | [] => true
       | c :: rest => isAlphanumeric c && forallb (partByteOk k 1) rest
       end.
Proof.
  unfold isValidPart, rangeString.
  destruct (isValidLen k s); [|reflexivity]. cbn [negb andb].
  destruct s as [|c s]; [reflexivity|].
  change (rangeFrom 0 0 (c :: s))
    with ((0, c) :: rangeFrom 1 (pred (runeWidth (c :: s))) s).
  cbn [forallb fst snd].
  change (partByteOk k 0 c) with (isAlphanumeric c).
  destruct (isAlphanumeric c) eqn:E; [|reflexivity].
  rewrite runeWidth_ascii.
  - apply range_later.
  - apply isAlphanumeric_spec in E.
    unfold isAsciiLetter, isAsciiDigit in E. lia.
Qed.

Lemma isValidLen_spec (k : partKind) (s : str) :
  isValidLen k s = true <-> lengthWithinBounds k (length s).
Proof.
  destruct k; unfold isValidLen, lengthWithinBounds;
    rewrite andb_true_iff, !Nat.leb_le; tauto.
Qed.

(** C4: [isValidPart(k, s)] is true exactly when the length of [s] is
    within the bounds of the kind (host 1-350, tag 1-80, namespace, model
    and digest 2-80), the first byte is an ASCII letter or digit, and every
    later byte is an ASCII letter, a digit, ['_'] or ['-'], or ['.'] (any
    kind but namespace), or [':'] (host only). *)
Theorem isValidPart_characterisation (k : partKind) (s : str) :
  isValidPart k s = true <-> validPartSpec k s.
Proof.
  rewrite isValidPart_bytes, andb_true_iff, isValidLen_spec.
  unfold validPartSpec.
  destruct s as [|c rest]; [tauto|].
  rewrite andb_true_iff, isAlphanumeric_spec, forallb_forall, Forall_forall.
  split; intros (Hl & Hc & Hr); repeat split; auto;
    intros x Hx; apply (laterByte_spec k 0); auto.
Qed.

(** ** Cutting at the last separator *)

Lemma HasPrefix_app (s p : str) :
  HasPrefix s p = true -> s = p ++ skipn (length p) s.
Proof.
  revert s; induction p as [|x p IH]; intros s H; [reflexivity|].
  destruct s as [|c s]; [discriminate|].
  simpl in H. apply andb_true_iff in H. destruct H as [Hc Hp].
  apply Ascii.eqb_eq in Hc. subst x. simpl. f_equal. apply IH, Hp.
Qed.

(** [LastIndex] is [-1], or the index at which an instance of [sep] starts. *)
Lemma LastIndex_spec (s sep : str) :
  LastIndex s sep = (-1)%Z \/
  exists l r, s = l ++ sep ++ r /\ LastIndex s sep = Z.of_nat (length l).
Proof.
  induction s as [|c s IH].
  - simpl. destruct sep as [|x sep]; simpl; [right|left; reflexivity].
    exists [], []. split; reflexivity.
  - cbn [LastIndex].
    destruct IH as [E | (l & r & Es & Ei)].
    + rewrite E. cbn [Z.leb Z.compare].
      destruct (HasPrefix (c :: s) sep) eqn:P; [right|left; reflexivity].
      exists [], (skipn (length sep) (c :: s)). split; [|reflexivity].
      apply HasPrefix_app, P.
    + right. rewrite Ei.
      replace (0 <=? Z.of_nat (length l))%Z with true
        by (symmetry; apply Z.leb_le; lia).
      exists (c :: l), r. split; [simpl; f_equal; exact Es|].
      simpl length. lia.
Qed.

Lemma firstn_prefix (l rest : str) : firstn (length l) (l ++ rest) = l.
Proof.
  rewrite firstn_app, Nat.sub_diag, firstn_all, firstn_O, app_nil_r.
  reflexivity.
Qed.

Lemma skipn_past (l sep r : str) :
  skipn (length l + length sep) (l ++ sep ++ r) = r.
Proof.
  rewrite app_assoc, skipn_app, length_app, Nat.sub_diag, skipn_O.
  rewrite skipn_all2 by (rewrite length_app; lia).
  reflexivity.
Qed.

Lemma cutLast_spec (s sep before after : str) (ok : bool) :
  cutLast s sep = (before, after, ok) ->
  (ok = false /\ before = s /\ after = []) \/
  (ok = true /\ s = before ++ sep ++ after).
Proof.
  unfold cutLast.
  destruct (LastIndex_spec s sep) as [E | (l & r & Es & Ei)].
  - rewrite E. cbn [Z.leb Z.compare]. intros H; inversion H. left; auto.
  - rewrite Ei.
    replace (0 <=? Z.of_nat (length l))%Z with true
      by (symmetry; apply Z.leb_le; lia).
    rewrite Nat2Z.id, <- Nat2Z.inj_add, Nat2Z.id. subst s.
    rewrite firstn_prefix, skipn_past.
    intros H; inversion H. right. split; reflexivity.
Qed.

Lemma LastIndex_char_notin (c : byte) (s : str) :
  ~ In c s -> LastIndex s [c] = (-1)%Z.
Proof.
  induction s as [|x s IH]; intros H; [reflexivity|].
  cbn [LastIndex]. rewrite IH by (intros C; apply H; right; exact C).
  cbn [Z.leb Z.compare HasPrefix].
  destruct (Ascii.eqb_spec x c) as [-> | N]; [|reflexivity].
  exfalso; apply H; left; reflexivity.
Qed.

Lemma LastIndex_char_last (c : byte) (l r : str) :
  ~ In c r -> LastIndex (l ++ c :: r) [c] = Z.of_nat (length l).
Proof.
  intros H. induction l as [|x l IH].
  - cbn [app LastIndex]. rewrite (LastIndex_char_notin _ _ H).
    cbn [Z.leb Z.compare HasPrefix]. rewrite Ascii.eqb_refl. reflexivity.
  - cbn [app LastIndex]. rewrite IH.
    replace (0 <=? Z.of_nat (length l))%Z with true
      by (symmetry; apply Z.leb_le; lia).
    simpl length. lia.
Qed.

Lemma cutLast_char_notin (c : byte) (s : str) :
  ~ In c s -> cutLast s [c] = (s, [], false).
Proof.
  intros H. unfold cutLast. rewrite (LastIndex_char_notin _ _ H). reflexivity.
Qed.

Lemma cutLast_char_last (c : byte) (l r : str) :
  ~ In c r -> cutLast (l ++ c :: r) [c] = (l, r, true).
Proof.
  intros H. unfold cutLast. rewrite (LastIndex_char_last _ l _ H).
  replace (0 <=? Z.of_nat (length l))%Z with true
    by (symmetry; apply Z.leb_le; lia).
  rewrite Nat2Z.id, <- Nat2Z.inj_add, Nat2Z.id.
  rewrite firstn_prefix.
  change (l ++ c :: r) with (l ++ [c] ++ r). rewrite skipn_past.
  reflexivity.
Qed.

Lemma cutPromised_spec (s sep before after : str) (ok : bool) :
  cutPromised s sep = (before, after, ok) ->
  (ok = false /\ before = s /\ after = []) \/
  (ok = true /\
   exists b a, s = b ++ sep ++ a /\
     before = cmp_Or [b; MissingPart] /\ after = cmp_Or [a; MissingPart]).
Proof.
  unfold cutPromised.
  destruct (cutLast s sep) as [[b a] p] eqn:E.
  apply cutLast_spec in E.
  destruct E as [(-> & -> & ->) | (-> & Es)]; cbn [negb];
    intros H; inversion H; subst.
  - left; auto.
  - right. split; [reflexivity|]. exists b, a. auto.
Qed.

Lemma cutPromised_absent (s sep before after : str) :
  cutPromised s sep = (before, after, false) -> before = s /\ after = [].
Proof.
  intros E. apply cutPromised_spec in E.
  destruct E as [(_ & E) | (C & _)]; [exact E | discriminate].
Qed.

(** ** The missing-part marker *)

Lemma MissingPart_invalid (k : partKind) : isValidPart k MissingPart = false.
Proof. destruct k; vm_compute; reflexivity. Qed.

Lemma orMissing_cases (x : str) :
  (x = [] /\ cmp_Or [x; MissingPart] = MissingPart) \/
  (x <> [] /\ cmp_Or [x; MissingPart] = x).
Proof.
  destruct x; [left; split; reflexivity|].
  right; split; [discriminate | reflexivity].
Qed.

Lemma valid_not_missing (k : partKind) (x : str) :
  (x <> [] -> isValidPart k x = true) -> x <> MissingPart.
Proof.
  intros H ->. rewrite MissingPart_invalid in H.
  assert (false = true) by (apply H; discriminate). discriminate.
Qed.

Lemma orMissing_valid (x : str) :
  cmp_Or [x; MissingPart] <> MissingPart ->
  x <> [] /\ cmp_Or [x; MissingPart] = x.
Proof.
  destruct (orMissing_cases x) as [[-> E] | [N E]]; [congruence | auto].
Qed.

Lemma slash_not_missing (b a : str) : b ++ "/" :: a <> MissingPart.
Proof.
  intros E.
  assert (H : In "/" MissingPart)
    by (rewrite <- E; apply in_or_app; right; left; reflexivity).
  vm_compute in H. intuition discriminate.
Qed.

(** A cut whose two sides are not the marker: the separator was absent, or
    both sides are non-empty and are the two sides of the input. *)
Lemma promised_cut (s : str) (c : byte) (b a : str) (p : bool) :
  cutPromised s [c] = (b, a, p) ->
  a <> MissingPart -> b <> MissingPart ->
  (p = false /\ b = s /\ a = []) \/
  (p = true /\ s = b ++ c :: a /\ a <> [] /\ b <> []).
Proof.
  intros E Ha Hb. apply cutPromised_spec in E.
  destruct E as [E | (-> & b0 & a0 & -> & -> & ->)]; [left; exact E|].
  apply orMissing_valid in Ha, Hb.
  destruct Ha as [Ha Ea]; destruct Hb as [Hb Eb]. rewrite Ea, Eb.
  right. repeat split; auto.
Qed.

Lemma digest_cut (s s1 d : str) (p : bool) :
  cutLast s (lit "@") = (s1, d, p) ->
  (if p && isEmpty d then MissingPart else d) <> MissingPart ->
  s = s1 ++ (if isEmpty (if p && isEmpty d then MissingPart else d)
             then []
             else "@" :: (if p && isEmpty d then MissingPart else d)).
Proof.
  intros E H. apply cutLast_spec in E.
  destruct E as [(-> & -> & ->) | (-> & ->)].
  - cbn [andb isEmpty]. rewrite app_nil_r. reflexivity.
  - destruct d as [|x d]; cbn [andb isEmpty] in *; [congruence|reflexivity].
Qed.

(** ** Name.String *)

Lemma String_mkName (h ns m t d : str) :
  Name.String (mkName h ns m t d)
  = (if isEmpty h then [] else h ++ ["/"])
    ++ (if isEmpty ns then [] else ns ++ ["/"])
    ++ m
    ++ (if isEmpty t then [] else ":" :: t)
    ++ (if isEmpty d then [] else "@" :: d).
Proof.
  unfold Name.String. cbn [Host Namespace Model Tag RawDigest].
  destruct (isEmpty h), (isEmpty ns), (isEmpty t), (isEmpty d);
    cbn [negb]; rewrite <- ?app_assoc, ?app_nil_r; reflexivity.
Qed.

Lemma isEmpty_nonempty (x : str) : x <> [] -> isEmpty x = false.
Proof. apply isEmpty_false. Qed.

(** ** Parsing and formatting *)

(** C1: when the name parsed from [s] without defaults is valid, its
    string is [s], byte for byte. *)
Theorem parse_then_String (s : str) :
  Name.IsValid (ParseNameNoDefaults s) = true ->
  Name.String (ParseNameNoDefaults s) = s.
Proof.
  unfold ParseNameNoDefaults.
  destruct (cutLast s (lit "@")) as [[s1 d] p1] eqn:E1.
  destruct (cutPromised s1 (lit ":")) as [[s2 t] p2] eqn:E2.
  destruct (cutPromised s2 (lit "/")) as [[s3 m] p3] eqn:E3.
  destruct (cutPromised s3 (lit "/")) as [[s4 ns] p4] eqn:E4.
  cbn [zeroName setRawDigest setTag setModel setNamespace setHost
       Host Namespace Model Tag RawDigest].
  change (lit "@") with ["@"] in E1. change (lit ":") with [":"] in E2.
  change (lit "/") with ["/"] in E3, E4.
  pose proof (digest_cut _ _ _ _ E1) as D.
  set (d' := if p1 && isEmpty d then MissingPart else d) in *.
  replace (if p1 && isEmpty d
           then setRawDigest (setRawDigest zeroName d) MissingPart
           else setRawDigest zeroName d)
    with (setRawDigest zeroName d')
    by (unfold d'; destruct (p1 && isEmpty d); reflexivity).
  destruct p3; cbn [negb]; [destruct p4; cbn [negb]|];
    unfold zeroName, setRawDigest, setTag, setModel, setNamespace, setHost;
    cbn [Host Namespace Model Tag RawDigest];
    intros V;
    apply IsValid_parts in V; cbn [Host Namespace Model Tag RawDigest] in V;
    destruct V as (_ & Vh & Vn & Vm & Vt & Vd);
    apply valid_not_missing in Vh, Vn, Vm, Vt, Vd;
    rewrite String_mkName, (D Vd) at 1.
  - (* host/namespace/model *)
    destruct (promised_cut _ _ _ _ _ E4 Vn Vh)
      as [(C & _) | (_ & X3 & Nn & Nh)]; [discriminate|].
    subst s3.
    destruct (promised_cut _ _ _ _ _ E3 Vm (slash_not_missing _ _))
      as [(C & _) | (_ & X2 & Nm & _)]; [discriminate|].
    subst s2.
    rewrite (isEmpty_nonempty _ Nh), (isEmpty_nonempty _ Nn).
    destruct (promised_cut _ _ _ _ _ E2 Vt (slash_not_missing _ _))
      as [(_ & X1 & X0) | (_ & X1 & Nt & _)].
    + subst s1 t. cbn [isEmpty app]. rewrite <- !app_assoc. reflexivity.
    + subst s1. rewrite (isEmpty_nonempty _ Nt). rewrite <- !app_assoc.
      reflexivity.
  - (* namespace/model *)
    destruct (cutPromised_absent _ _ _ _ E4) as [X3 X4]. subst s4 ns.
    destruct (promised_cut _ _ _ _ _ E3 Vm Vn)
      as [(C & _) | (_ & X2 & Nm & Nn)]; [discriminate|].
    subst s2.
    rewrite (isEmpty_nonempty _ Nn).
    destruct (promised_cut _ _ _ _ _ E2 Vt (slash_not_missing _ _))
      as [(_ & X1 & X0) | (_ & X1 & Nt & _)].
    + subst s1 t. cbn [isEmpty app]. rewrite <- !app_assoc. reflexivity.
    + subst s1. rewrite (isEmpty_nonempty _ Nt). cbn [isEmpty app].
      rewrite <- !app_assoc. reflexivity.
  - (* model *)
    destruct (cutPromised_absent _ _ _ _ E3) as [X3 X4]. subst s3 m.
    destruct (promised_cut _ _ _ _ _ E2 Vt Vm)
      as [(_ & X1 & X0) | (_ & X1 & Nt & _)].
    + subst s2 t. cbn [isEmpty app]. reflexivity.
    + subst s1. rewrite (isEmpty_nonempty _ Nt). cbn [isEmpty app].
      rewrite <- !app_assoc. reflexivity.
Qed.

Lemma parse_then_String_witness :
  Name.IsValid (ParseNameNoDefaults (lit "host:https/namespace/model:tag@dd"))
  = true /\
  Name.String (ParseNameNoDefaults (lit "host:https/namespace/model:tag@dd"))
  = lit "host:https/namespace/model:tag@dd".
Proof.
  split; [vm_compute; reflexivity|].
  apply (parse_then_String (lit "host:https/namespace/model:tag@dd")).
  vm_compute; reflexivity.
Defined.

(** ** Digests *)

(** C7: [d.IsValid()] is true exactly when the type is sha256 and the hash
    is not the all-zero array; ["sha256:"] followed by 64 zeros decodes to
    the sha256 digest with the all-zero hash, which is not valid. *)
Theorem Digest_IsValid_characterisation :
  (forall d : Digest,
     Digest.IsValid d = true <->
     Type_ d = DigestTypeSHA256 /\ Hash d <> zeroHash) /\
  ParseDigest (lit "sha256:" ++ repeat "0" 64)
  = Ok (mkDigest DigestTypeSHA256 zeroHash) /\
  Digest.IsValid (mkDigest DigestTypeSHA256 zeroHash) = false.
Proof.
  split; [|split; vm_compute; reflexivity].
  intros d. unfold Digest.IsValid.
  destruct (Z.eqb_spec (Type_ d) DigestTypeSHA256) as [E | N]; cbn [negb].
  - rewrite negb_true_iff, str_eqb_neq. tauto.
  - split; [discriminate | tauto].
Qed.

Lemma store_in_range (dst : list byte) (i : nat) (v : byte) :
  i < length dst ->
  store dst i v = Ok (firstn i dst ++ v :: skipn (S i) dst).
Proof.
  intros H. unfold store. apply Nat.ltb_lt in H. rewrite H. reflexivity.
Qed.

(** [hex.Decode] stays inside [dst] as long as [src] has at most one byte
    more than twice the room left in [dst]. *)
Lemma hexDecode_fits (n : nat) :
  forall (src dst : list byte) (i : nat),
    length src <= 2 * n + 1 -> i + n <= length dst ->
    exists r, hexDecode dst i src = Ok r.
Proof.
  induction n as [|n IH]; intros src dst i Hlen Hfit;
    destruct src as [|p [|q rest]]; cbn [hexDecode];
    try (eexists; reflexivity);
    try (destruct (fromHexChar p); eexists; reflexivity).
  - exfalso. simpl in Hlen. lia.
  - destruct (fromHexChar p); [|eexists; reflexivity].
    destruct (fromHexChar q) as [b|]; [|eexists; reflexivity].
    rewrite store_in_range by lia. cbn [bind].
    apply IH.
    + simpl in Hlen. lia.
    + rewrite length_app, length_firstn. cbn [length].
      rewrite length_skipn. lia.
Qed.

(** C5: [ParseDigest] does not return for every input.  [hex.Decode]
    writes one byte of the 32-byte array for every two digits without
    looking at the length of the array, so a hash segment of 66 digits makes
    it write at index 32: a run-time panic, not the zero digest. *)
Theorem ParseDigest_panics_on_long_hash :
  ParseDigest (lit "sha256:" ++ validSHA256Hex ++ lit "ab")
  = Panic (IndexOutOfRange 32 32).
Proof. vm_compute. reflexivity. Qed.

(** *** Decoding and encoding hexadecimal *)

Lemma lowerHex_pair (p q : byte) :
  isLowerHex p = true -> isLowerHex q = true ->
  exists a b,
    fromHexChar p = Some a /\ fromHexChar q = Some b /\
    EncodeToString [ascii_of_N (N.lor (N.shiftl a 4) b)] = [p; q].
Proof.
  destruct p as [[] [] [] [] [] [] [] []]; intros Hp;
    try (vm_compute in Hp; discriminate Hp);
    destruct q as [[] [] [] [] [] [] [] []]; intros Hq;
    try (vm_compute in Hq; discriminate Hq);
    do 2 eexists; repeat split; vm_compute; reflexivity.
Qed.

Lemma lowerHex_not (c x : byte) :
  isLowerHex c = false -> forall h, forallb isLowerHex h = true -> ~ In c h.
Proof.
  intros Hc h Hh Hin.
  rewrite forallb_forall in Hh. rewrite (Hh c Hin) in Hc. discriminate.
Qed.

(** Decoding [2 * n] lowercase digits into an array with room for [n] more
    bytes from index [i] on writes exactly those [n] bytes. *)
Lemma hexDecode_lower (n : nat) :
  forall (h : str) (dst : list byte) (i : nat),
    length h = 2 * n -> forallb isLowerHex h = true ->
    i + n <= length dst ->
    hexDecode dst i h
    = Ok (firstn i dst ++ hexBytes h ++ skipn (i + n) dst, i + n, None)
    /\ EncodeToString (hexBytes h) = h.
Proof.
  induction n as [|n IH]; intros h dst i Hlen Hhex Hfit.
  - destruct h; [|discriminate]. cbn [hexDecode hexBytes app EncodeToString].
    rewrite Nat.add_0_r, firstn_skipn. split; reflexivity.
  - destruct h as [|p [|q rest]]; try (exfalso; simpl in Hlen; lia).
    cbn [forallb] in Hhex.
    apply andb_true_iff in Hhex. destruct Hhex as [Hp Hhex].
    apply andb_true_iff in Hhex. destruct Hhex as [Hq Hrest].
    destruct (lowerHex_pair p q Hp Hq) as (a & b & Ea & Eb & Enc).
    cbn [hexDecode hexBytes]. rewrite Ea, Eb.
    rewrite store_in_range by lia. cbn [bind].
    set (v := ascii_of_N (N.lor (N.shiftl a 4) b)) in *.
    assert (Hi : length (firstn i dst) = i) by (rewrite length_firstn; lia).
    destruct (IH rest (firstn i dst ++ v :: skipn (S i) dst) (S i))
      as [Dec Rt].
    + simpl in Hlen. lia.
    + exact Hrest.
    + rewrite length_app, Hi. cbn [length]. rewrite length_skipn. lia.
    + rewrite Dec. split.
      * replace (firstn (S i) (firstn i dst ++ v :: skipn (S i) dst))
          with (firstn i dst ++ [v]).
        2:{ rewrite firstn_app, Hi.
            rewrite (firstn_all2 (firstn i dst)) by lia.
            replace (S i - i) with 1 by lia. reflexivity. }
        replace (skipn (S i + n) (firstn i dst ++ v :: skipn (S i) dst))
          with (skipn (i + S n) dst).
        2:{ rewrite skipn_app, Hi.
            rewrite (skipn_all2 (firstn i dst)) by lia.
            replace (S i + n - i) with (S n) by lia.
            change (skipn (S n) (v :: skipn (S i) dst))
              with (skipn n (skipn (S i) dst)).
            rewrite skipn_skipn. cbn [app]. f_equal. lia. }
        replace (S i + n) with (i + S n) by lia.
        rewrite <- app_assoc. reflexivity.
      * change (EncodeToString (v :: hexBytes rest))
          with (EncodeToString [v] ++ EncodeToString (hexBytes rest)).
        rewrite Enc, Rt. reflexivity.
Qed.

Lemma ParseDigest_lower (sep : byte) (h : str) :
  sep = ":" \/ sep = "-" ->
  length h = 64 -> forallb isLowerHex h = true ->
  ParseDigest (lit "sha256" ++ sep :: h)
  = Ok (mkDigest DigestTypeSHA256 (hexBytes h))
  /\ EncodeToString (hexBytes h) = h.
Proof.
  intros Hsep Hlen Hhex.
  assert (Ncolon : ~ In ":" h) by (apply (lowerHex_not ":" ":"); auto).
  assert (Ndash : ~ In "-" h) by (apply (lowerHex_not "-" "-"); auto).
  destruct (hexDecode_lower 32 h zeroHash 0 Hlen Hhex) as [Dec Rt];
    [cbn; lia|].
  split; [|exact Rt].
  unfold ParseDigest.
  assert (Cut : (let '(typ, hash, ok) :=
                   cutLast (lit "sha256" ++ sep :: h) (lit ":") in
                 if negb ok then cutLast (lit "sha256" ++ sep :: h) (lit "-")
                 else (typ, hash, ok)) = (lit "sha256", h, true)).
  { destruct Hsep as [-> | ->].
    - change (lit ":") with [":"].
      rewrite (cutLast_char_last ":" (lit "sha256") h Ncolon). reflexivity.
    - change (lit ":") with [":"]. change (lit "-") with ["-"].
      rewrite cutLast_char_notin.
      + cbn [negb]. apply (cutLast_char_last "-" (lit "sha256") h Ndash).
      + intros Hin. apply in_app_or in Hin. destruct Hin as [Hin | Hin].
        * vm_compute in Hin. intuition discriminate.
        * destruct Hin as [Hin | Hin]; [discriminate | contradiction]. }
  destruct (cutLast (lit "sha256" ++ sep :: h) (lit ":")) as [[typ0 hash0] ok0].
  rewrite Cut. cbn [negb].
  change (str_eqb (lit "sha256") (lit "sha256")) with true. cbn [negb].
  change (Hash zeroDigest) with zeroHash.
  rewrite Dec. cbn [bind firstn app Nat.add].
  change (skipn 32 zeroHash) with (@nil ascii). rewrite app_nil_r.
  reflexivity.
Qed.

(** C6: for 64 lowercase hexadecimal digits [h], ["sha256:" + h] and
    ["sha256-" + h] parse to the same digest, and the string of that digest
    is ["sha256-" + h] whichever separator the input had. *)
Theorem ParseDigest_separator_canonical (h : str) :
  length h = 64 -> forallb isLowerHex h = true ->
  ParseDigest (lit "sha256:" ++ h) = ParseDigest (lit "sha256-" ++ h) /\
  exists d,
    ParseDigest (lit "sha256:" ++ h) = Ok d /\
    Digest.String d = lit "sha256-" ++ h.
Proof.
  intros Hlen Hhex.
  destruct (ParseDigest_lower ":" h (or_introl eq_refl) Hlen Hhex) as [Pc Rt].
  destruct (ParseDigest_lower "-" h (or_intror eq_refl) Hlen Hhex) as [Pd _].
  change (lit "sha256:" ++ h) with (lit "sha256" ++ ":" :: h).
  change (lit "sha256-" ++ h) with (lit "sha256" ++ "-" :: h).
  rewrite Pc, Pd. split; [reflexivity|].
  exists (mkDigest DigestTypeSHA256 (hexBytes h)). split; [reflexivity|].
  unfold Digest.String. cbn [Type_ Hash]. rewrite Rt. reflexivity.
Qed.

Lemma ParseDigest_separator_canonical_witness :
  length validSHA256Hex = 64 /\
  forallb isLowerHex validSHA256Hex = true /\
  ParseDigest (lit "sha256:" ++ validSHA256Hex)
  = ParseDigest (lit "sha256-" ++ validSHA256Hex) /\
  exists d,
    ParseDigest (lit "sha256:" ++ validSHA256Hex) = Ok d /\
    Digest.String d = lit "sha256-" ++ validSHA256Hex.
Proof.
  split; [reflexivity|]. split; [vm_compute; reflexivity|].
  apply (ParseDigest_separator_canonical validSHA256Hex);
    vm_compute; reflexivity.
Defined.

(** ** Promised parts that are missing *)

Lemma hasMissingPart_false (n : Name) :
  hasMissingPart n = false ->
  Host n <> MissingPart /\ Namespace n <> MissingPart /\
  Model n <> MissingPart /\ Tag n <> MissingPart /\
  RawDigest n <> MissingPart.
Proof.
  unfold hasMissingPart. cbn [existsb]. rewrite !orb_false_iff.
  rewrite !str_eqb_neq. tauto.
Qed.

Lemma hasMissingPart_true (n : Name) :
  hasMissingPart n = true ->
  Host n = MissingPart \/ Namespace n = MissingPart \/
  Model n = MissingPart \/ Tag n = MissingPart \/ RawDigest n = MissingPart.
Proof.
  unfold hasMissingPart. cbn [existsb]. rewrite !orb_true_iff.
  rewrite !str_eqb_eq. intuition discriminate.
Qed.

(** A name with the marker as one of its parts is not valid. *)
Lemma missing_invalid (n : Name) :
  hasMissingPart n = true -> Name.IsValid n = false.
Proof.
  intros H. destruct (Name.IsValid n) eqn:V; [|reflexivity].
  apply IsValid_parts in V. destruct V as (_ & Vh & Vn & Vm & Vt & Vd).
  apply valid_not_missing in Vh, Vn, Vm, Vt, Vd.
  apply hasMissingPart_true in H. tauto.
Qed.

(** Merging does not replace a marker: it fills empty parts only. *)
Lemma missing_Merge (n o : Name) :
  hasMissingPart n = true -> hasMissingPart (Name.Merge n o) = true.
Proof.
  intros H. apply hasMissingPart_true in H.
  unfold hasMissingPart, Name.Merge, setHost, setNamespace, setTag.
  cbn [Host Namespace Model Tag RawDigest existsb].
  rewrite !orb_true_iff, !str_eqb_eq.
  destruct H as [H | [H | [H | [H | H]]]]; rewrite H; auto 7.
Qed.

Lemma promised_cut_raw (s : str) (c : byte) (b a : str) (p : bool) :
  cutPromised s [c] = (b, a, p) ->
  a <> MissingPart -> b <> MissingPart ->
  cutLast s [c] = (b, a, p) /\
  (p = true -> s = b ++ c :: a /\ a <> [] /\ b <> []).
Proof.
  intros E Ha Hb.
  destruct (promised_cut s c b a p E Ha Hb)
    as [(-> & -> & ->) | (-> & Es & Na & Nb)].
  - split; [|discriminate].
    unfold cutPromised in E.
    destruct (cutLast s [c]) as [[l r] ok]. destruct ok; cbn [negb] in E.
    + discriminate E.
    + exact E.
  - split; [|auto].
    unfold cutPromised in E.
    destruct (cutLast s [c]) as [[l r] ok]. destruct ok; cbn [negb] in E.
    + injection E as Eb Ea.
      destruct l, r; cbn [isEmpty] in Eb, Ea; congruence.
    + discriminate E.
Qed.

Lemma cutPromised_absent_raw (s : str) (c : byte) (b a : str) :
  cutPromised s [c] = (b, a, false) -> cutLast s [c] = (s, [], false).
Proof.
  intros E. destruct (cutPromised_absent s [c] b a E) as [-> ->].
  unfold cutPromised in E.
  destruct (cutLast s [c]) as [[l r] ok]. destruct ok; cbn [negb] in E.
  - discriminate E.
  - exact E.
Qed.

(** When no part of the parsed name is the marker, every separator the
    parser cut at had text after it, and every [':'] and ['/'] had text
    before it. *)
Lemma no_missing_no_promise (s : str) :
  hasMissingPart (ParseNameNoDefaults s) = false -> ~ promisedMissing s.
Proof.
  unfold ParseNameNoDefaults, promisedMissing, nameCuts, cutAt, beforeCut.
  change (lit "@") with ["@"]. change (lit ":") with [":"].
  change (lit "/") with ["/"].
  destruct (cutLast s ["@"]) as [[s1 d] p1] eqn:E1.
  destruct (cutPromised s1 [":"]) as [[s2 t] p2] eqn:E2.
  destruct (cutPromised s2 ["/"]) as [[s3 m] p3] eqn:E3.
  destruct (cutPromised s3 ["/"]) as [[s4 ns] p4] eqn:E4.
  cbn [fst snd].
  cbn [zeroName setRawDigest setTag setModel setNamespace setHost
       Host Namespace Model Tag RawDigest].
  set (d' := if p1 && isEmpty d then MissingPart else d) in *.
  replace (if p1 && isEmpty d
           then setRawDigest (setRawDigest zeroName d) MissingPart
           else setRawDigest zeroName d)
    with (setRawDigest zeroName d')
    by (unfold d'; destruct (p1 && isEmpty d); reflexivity).
  assert (Nd : d' <> MissingPart -> p1 = true -> d <> []).
  { unfold d'. intros H -> ->. apply H. reflexivity. }
  destruct p3; cbn [negb]; [destruct p4; cbn [negb]|];
    unfold zeroName, setRawDigest, setTag, setModel, setNamespace, setHost;
    cbn [Host Namespace Model Tag RawDigest];
    intros V; apply hasMissingPart_false in V;
    cbn [Host Namespace Model Tag RawDigest] in V;
    destruct V as (Vh & Vn & Vm & Vt & Vd); specialize (Nd Vd).
  - (* host/namespace/model *)
    destruct (promised_cut_raw _ _ _ _ _ E4 Vn Vh) as [R4 F4].
    destruct (F4 eq_refl) as (X3 & Nn & Nh). subst s3.
    destruct (promised_cut_raw _ _ _ _ _ E3 Vm (slash_not_missing _ _))
      as [R3 F3].
    destruct (F3 eq_refl) as (X2 & Nm & _). subst s2.
    destruct (promised_cut_raw _ _ _ _ _ E2 Vt (slash_not_missing _ _))
      as [R2 F2].
    rewrite R2; cbn [fst snd]. rewrite R3; cbn [fst snd]. rewrite R4.
    intros (c & l & r & Hin & Hs).
    destruct p1, p2; cbn [app In] in Hin;
      repeat (destruct Hin as [Hin | Hin]; [injection Hin as <- <- <-|]);
      try contradiction; intuition congruence.
  - (* namespace/model *)
    pose proof (cutPromised_absent_raw _ _ _ _ E4) as R4.
    destruct (cutPromised_absent _ _ _ _ E4) as [X3 X4]. subst s4 ns.
    destruct (promised_cut_raw _ _ _ _ _ E3 Vm Vn) as [R3 F3].
    destruct (F3 eq_refl) as (X2 & Nm & Nn). subst s2.
    destruct (promised_cut_raw _ _ _ _ _ E2 Vt (slash_not_missing _ _))
      as [R2 F2].
    rewrite R2; cbn [fst snd]. rewrite R3; cbn [fst snd]. rewrite R4.
    intros (c & l & r & Hin & Hs).
    destruct p1, p2; cbn [app In] in Hin;
      repeat (destruct Hin as [Hin | Hin]; [injection Hin as <- <- <-|]);
      try contradiction; intuition congruence.
  - (* model *)
    pose proof (cutPromised_absent_raw _ _ _ _ E3) as R3.
    destruct (cutPromised_absent _ _ _ _ E3) as [X3 X4]. subst s3 m.
    destruct (promised_cut_raw _ _ _ _ _ E2 Vt Vm) as [R2 F2].
    rewrite R2; cbn [fst snd]. rewrite R3; cbn [fst snd]. rewrite R3.
    intros (c & l & r & Hin & Hs).
    destruct p1, p2; cbn [app In] in Hin;
      repeat (destruct Hin as [Hin | Hin]; [injection Hin as <- <- <-|]);
      try contradiction; intuition congruence.
Qed.

Lemma promised_hasMissing (s : str) :
  promisedMissing s -> hasMissingPart (ParseNameNoDefaults s) = true.
Proof.
  intros H. destruct (hasMissingPart (ParseNameNoDefaults s)) eqn:E;
    [reflexivity|].
  exfalso. exact (no_missing_no_promise s E H).
Qed.

(** C9, as the code has it: the name before ['@'] may be empty (["@dd"] is
    a valid name); every other separator the parser cuts at needs text on
    both sides, and ['@'] needs text after it.  When one of these is
    missing, the marker put in its place fails the validator of every kind,
    defaulting leaves it where it is, and neither [ParseName] nor
    [ParseNameNoDefaults] gives a valid name. *)
Theorem missing_promised_part_invalid (s : str) :
  promisedMissing s ->
  (forall k, isValidPart k MissingPart = false) /\
  Name.IsValid (ParseName s) = false /\
  Name.IsValid (ParseNameNoDefaults s) = false.
Proof.
  intros H. apply promised_hasMissing in H.
  split; [exact MissingPart_invalid|]. split.
  - apply missing_invalid. unfold ParseName. apply missing_Merge, H.
  - apply missing_invalid, H.
Qed.

Lemma missing_promised_part_invalid_witness :
  promisedMissing (lit "/model:") /\
  (forall k, isValidPart k MissingPart = false) /\
  Name.IsValid (ParseName (lit "/model:")) = false /\
  Name.IsValid (ParseNameNoDefaults (lit "/model:")) = false.
Proof.
  assert (H : promisedMissing (lit "/model:")).
  { exists ":", (lit "/model"), []. split; [|left; reflexivity].
    vm_compute. left. reflexivity. }
  split; [exact H|]. apply (missing_promised_part_invalid (lit "/model:") H).
Defined.

(** C9, as stated, fails: ["@dd"] has the separator ['@'] with nothing
    before it and parses to a valid name, with and without defaults. *)
Lemma empty_before_digest_valid :
  emptyAdjacent (lit "@dd") /\
  Name.IsValid (ParseNameNoDefaults (lit "@dd")) = true /\
  Name.IsValid (ParseName (lit "@dd")) = true.
Proof.
  split; [|split; vm_compute; reflexivity].
  exists "@", [], (lit "dd"). split; [|left; reflexivity].
  vm_compute. left. reflexivity.
Qed.

(** * Further properties of the package *)

(** ** [cutLast] and [cutPromised] with a one-byte separator *)

Lemma in_split_last (c : byte) (s : str) :
  In c s -> exists l r, s = l ++ c :: r /\ ~ In c r.
Proof.
  induction s as [|x s IH]; intros H; [contradiction|].
  destruct (in_dec ascii_dec c s) as [Hin | Hout].
  - destruct (IH Hin) as (l & r & -> & Hr).
    exists (x :: l), r. split; [reflexivity | exact Hr].
  - destruct H as [-> | H]; [|contradiction].
    exists [], s. split; [reflexivity | exact Hout].
Qed.

Lemma cutLast_found_inv (c : byte) (s b a : str) :
  cutLast s [c] = (b, a, true) -> s = b ++ c :: a /\ ~ In c a.
Proof.
  intros E. destruct (in_dec ascii_dec c s) as [Hin | Hout].
  - destruct (in_split_last c s Hin) as (l & r & -> & Hr).
    rewrite (cutLast_char_last c l r Hr) in E.
    injection E as <- <-. split; [reflexivity | exact Hr].
  - rewrite (cutLast_char_notin c s Hout) in E. discriminate E.
Qed.

Lemma cutLast_absent_inv (c : byte) (s b a : str) :
  cutLast s [c] = (b, a, false) -> b = s /\ a = [] /\ ~ In c s.
Proof.
  intros E. destruct (in_dec ascii_dec c s) as [Hin | Hout].
  - destruct (in_split_last c s Hin) as (l & r & -> & Hr).
    rewrite (cutLast_char_last c l r Hr) in E. discriminate E.
  - rewrite (cutLast_char_notin c s Hout) in E.
    injection E as <- <-. auto.
Qed.

(** X1: [cutLast] with a one-byte separator cuts at the last occurrence:
    it reports the separator exactly when the string contains it, the two
    sides put back around the separator give the string, and the separator
    does not occur in the right side.  Without the separator the string
    comes back whole with an empty right side. *)
Theorem cutLast_last_occurrence (c : byte) (s b a : str) :
  (cutLast s [c] = (b, a, true) <-> s = b ++ c :: a /\ ~ In c a) /\
  (cutLast s [c] = (b, a, false) <-> b = s /\ a = [] /\ ~ In c s).
Proof.
  split; split.
  - apply cutLast_found_inv.
  - intros [-> Ha]. apply cutLast_char_last, Ha.
  - apply cutLast_absent_inv.
  - intros (-> & -> & Hs). apply cutLast_char_notin, Hs.
Qed.

Lemma orMissing_notin (c : byte) (x : str) :
  ~ In c MissingPart -> ~ In c x -> ~ In c (cmp_Or [x; MissingPart]).
Proof.
  intros Hm Hx. destruct (orMissing_cases x) as [[_ ->] | [_ ->]]; assumption.
Qed.

Lemma orMissing_nonempty (x : str) : cmp_Or [x; MissingPart] <> [].
Proof. destruct x; discriminate. Qed.

Lemma cutPromised_found_inv (c : byte) (s b a : str) :
  cutPromised s [c] = (b, a, true) ->
  exists b0 a0,
    s = b0 ++ c :: a0 /\ ~ In c a0 /\
    b = cmp_Or [b0; MissingPart] /\ a = cmp_Or [a0; MissingPart].
Proof.
  unfold cutPromised. destruct (cutLast s [c]) as [[b0 a0] ok] eqn:E.
  destruct ok; cbn [negb]; intros H; [|discriminate H].
  apply cutLast_found_inv in E. destruct E as [Es Ha].
  exists b0, a0. injection H as Hb Ha'.
  rewrite <- !cmp_Or_pair in Hb, Ha'. auto.
Qed.

Lemma cutPromised_absent_inv (c : byte) (s b a : str) :
  cutPromised s [c] = (b, a, false) -> b = s /\ a = [] /\ ~ In c s.
Proof.
  unfold cutPromised. destruct (cutLast s [c]) as [[b0 a0] ok] eqn:E.
  destruct ok; cbn [negb]; intros H; [discriminate H|].
  injection H as <- <-. apply cutLast_absent_inv, E.
Qed.

Lemma missing_no_separator :
  ~ In "/" MissingPart /\ ~ In ":" MissingPart /\ ~ In "@" MissingPart.
Proof. repeat split; vm_compute; intuition discriminate. Qed.

(** ** The names the parser produces *)

(** The parser, as the cuts it makes and the name it builds from them. *)
Lemma parse_cases (s : str) :
  exists s1 d p1 s2 t p2 s3 m p3 s4 ns p4,
    cutLast s ["@"] = (s1, d, p1) /\
    cutPromised s1 [":"] = (s2, t, p2) /\
    cutPromised s2 ["/"] = (s3, m, p3) /\
    cutPromised s3 ["/"] = (s4, ns, p4) /\
    ParseNameNoDefaults s
    = if negb p3
      then mkName [] [] s3 t (if p1 && isEmpty d then MissingPart else d)
      else if negb p4
      then mkName [] s4 m t (if p1 && isEmpty d then MissingPart else d)
      else mkName s4 ns m t (if p1 && isEmpty d then MissingPart else d).
Proof.
  unfold ParseNameNoDefaults.
  change (lit "@") with ["@"]. change (lit ":") with [":"].
  change (lit "/") with ["/"].
  destruct (cutLast s ["@"]) as [[s1 d] p1] eqn:E1.
  destruct (cutPromised s1 [":"]) as [[s2 t] p2] eqn:E2.
  destruct (cutPromised s2 ["/"]) as [[s3 m] p3] eqn:E3.
  destruct (cutPromised s3 ["/"]) as [[s4 ns] p4] eqn:E4.
  exists s1, d, p1, s2, t, p2, s3, m, p3, s4, ns, p4.
  repeat (split; [first [reflexivity | assumption]|]).
  unfold zeroName, setRawDigest, setTag, setModel, setNamespace, setHost.
  cbn [Host Namespace Model Tag RawDigest].
  destruct (p1 && isEmpty d), p3, p4; reflexivity.
Qed.

Lemma digest_part_no_at (s s1 d : str) (p1 : bool) :
  cutLast s ["@"] = (s1, d, p1) ->
  ~ In "@" (if p1 && isEmpty d then MissingPart else d).
Proof.
  intros E. destruct missing_no_separator as (_ & _ & Hm).
  destruct p1.
  - apply cutLast_found_inv in E. destruct E as [_ Hd].
    destruct d; cbn [andb isEmpty]; assumption.
  - apply cutLast_absent_inv in E. destruct E as (_ & -> & _).
    cbn [andb]. intros [].
Qed.

Lemma promised_after_no_sep (c : byte) (s b a : str) (p : bool) :
  ~ In c MissingPart ->
  cutPromised s [c] = (b, a, p) -> ~ In c a.
Proof.
  intros Hm E. destruct p.
  - apply cutPromised_found_inv in E.
    destruct E as (b0 & a0 & _ & Ha & _ & ->).
    apply orMissing_notin; assumption.
  - apply cutPromised_absent_inv in E. destruct E as (_ & -> & _).
    intros [].
Qed.

(** X2: whatever the input, the parser never leaves a separator inside the
    part that separator ends: the model and the namespace contain no ['/'],
    the tag no [':'] and the raw digest no ['@']. *)
Theorem parsed_parts_without_separator (s : str) :
  ~ In "/" (Model (ParseNameNoDefaults s)) /\
  ~ In "/" (Namespace (ParseNameNoDefaults s)) /\
  ~ In ":" (Tag (ParseNameNoDefaults s)) /\
  ~ In "@" (RawDigest (ParseNameNoDefaults s)).
Proof.
  destruct (parse_cases s)
    as (s1 & d & p1 & s2 & t & p2 & s3 & m & p3 & s4 & ns & p4
        & E1 & E2 & E3 & E4 & ->).
  destruct missing_no_separator as (Hslash & Hcolon & _).
  pose proof (digest_part_no_at s s1 d p1 E1) as Hd.
  pose proof (promised_after_no_sep ":" s1 s2 t p2 Hcolon E2) as Ht.
  pose proof (promised_after_no_sep "/" s2 s3 m p3 Hslash E3) as Hm.
  pose proof (promised_after_no_sep "/" s3 s4 ns p4 Hslash E4) as Hn.
  destruct p3; cbn [negb]; [destruct p4; cbn [negb]|];
    cbn [Host Namespace Model Tag RawDigest].
  - auto.
  - apply cutPromised_absent_inv in E4. destruct E4 as (-> & _ & H4). auto.
  - apply cutPromised_absent_inv in E3. destruct E3 as (-> & _ & H3).
    repeat split; auto.
Qed.

(** X3: every name the parser produces is well shaped: it has a host only
    together with a namespace, a namespace or a tag only together with a
    model, and a [':'] inside the host only together with a tag. *)
Theorem parsed_name_wellShaped (s : str) :
  wellShaped (ParseNameNoDefaults s).
Proof.
  destruct (parse_cases s)
    as (s1 & d & p1 & s2 & t & p2 & s3 & m & p3 & s4 & ns & p4
        & E1 & E2 & E3 & E4 & ->).
  destruct missing_no_separator as (Hslash & Hcolon & _).
  unfold wellShaped.
  destruct p3; cbn [negb]; [destruct p4; cbn [negb]|];
    cbn [Host Namespace Model Tag RawDigest].
  - (* host/namespace/model *)
    apply cutPromised_found_inv in E3, E4.
    destruct E3 as (b3 & a3 & X2 & _ & -> & ->).
    destruct E4 as (b4 & a4 & X3 & _ & -> & ->).
    split; [intros _; apply orMissing_nonempty|].
    split; [intros C; exfalso; exact (orMissing_nonempty _ C)|].
    intros Et. destruct p2.
    + apply cutPromised_found_inv in E2.
      destruct E2 as (b2 & a2 & _ & _ & _ & ->).
      exfalso; exact (orMissing_nonempty _ Et).
    + apply cutPromised_absent_inv in E2. destruct E2 as (-> & _ & H1).
      assert (H3 : ~ In ":" (cmp_Or [b3; MissingPart])).
      { apply orMissing_notin; [exact Hcolon|].
        intros C. apply H1. rewrite X2. apply in_or_app. left. exact C. }
      apply orMissing_notin; [exact Hcolon|].
      intros C. apply H3. rewrite X3. apply in_or_app. left. exact C.
  - (* namespace/model *)
    apply cutPromised_found_inv in E3.
    destruct E3 as (b3 & a3 & _ & _ & -> & ->).
    split; [intros C; contradiction|].
    split; [intros C; exfalso; exact (orMissing_nonempty _ C)|].
    intros _ [].
  - (* model *)
    apply cutPromised_absent_inv in E3. destruct E3 as (-> & _ & _).
    split; [intros C; contradiction|].
    split; [|intros _ []].
    intros ->. split; [reflexivity|].
    destruct p2.
    + apply cutPromised_found_inv in E2.
      destruct E2 as (b2 & a2 & _ & _ & C & _).
      exfalso; exact (orMissing_nonempty _ (eq_sym C)).
    + apply cutPromised_absent_inv in E2. destruct E2 as (_ & -> & _).
      reflexivity.
Qed.

(** ** Bytes a valid part cannot contain *)

Lemma valid_part_excludes (c : byte) (k : partKind) (x : str) :
  isAlphanumeric c = false -> partByteOk k 1 c = false ->
  isValidPart k x = true -> ~ In c x.
Proof.
  intros Hfirst Hlater V Hin. rewrite isValidPart_bytes in V.
  apply andb_true_iff in V. destruct V as [_ V].
  destruct x as [|x0 x]; [contradiction|].
  apply andb_true_iff in V. destruct V as [V0 V].
  destruct Hin as [-> | Hin]; [congruence|].
  rewrite forallb_forall in V. rewrite (V c Hin) in Hlater. discriminate.
Qed.

Lemma valid_part_nonempty (k : partKind) (x : str) :
  isValidPart k x = true -> x <> [].
Proof. intros V ->. destruct k; vm_compute in V; discriminate V. Qed.

Lemma part_no_slash (k : partKind) (x : str) :
  (x <> [] -> isValidPart k x = true) -> ~ In "/" x.
Proof.
  destruct x as [|c x]; [intros _ []|]. intros V.
  apply (valid_part_excludes "/" k); [reflexivity | destruct k; reflexivity|].
  apply V. discriminate.
Qed.

Lemma part_no_at (k : partKind) (x : str) :
  (x <> [] -> isValidPart k x = true) -> ~ In "@" x.
Proof.
  destruct x as [|c x]; [intros _ []|]. intros V.
  apply (valid_part_excludes "@" k); [reflexivity | destruct k; reflexivity|].
  apply V. discriminate.
Qed.

Lemma part_no_colon (k : partKind) (x : str) :
  k <> kindHost -> (x <> [] -> isValidPart k x = true) -> ~ In ":" x.
Proof.
  intros Hk. destruct x as [|c x]; [intros _ []|]. intros V.
  apply (valid_part_excludes ":" k);
    [reflexivity | destruct k; try reflexivity; contradiction|].
  apply V. discriminate.
Qed.

(** X4: in a valid name no part contains ['/'] or ['@'], and no part but
    the host contains [':']: the separators of the string form cannot hide
    inside a part. *)
Theorem valid_parts_hold_no_separator (n : Name) :
  Name.IsValid n = true ->
  Forall (fun part => ~ In "/" part /\ ~ In "@" part) (parts n) /\
  Forall (fun part => ~ In ":" part)
    [Namespace n; Model n; Tag n; RawDigest n].
Proof.
  intros V. apply IsValid_parts in V.
  destruct V as (_ & Vh & Vn & Vm & Vt & Vd).
  unfold parts. split.
  - repeat constructor;
      first [eapply part_no_slash; eassumption
            | eapply part_no_at; eassumption].
  - repeat constructor;
      (eapply part_no_colon; [|eassumption]); discriminate.
Qed.

Lemma valid_parts_hold_no_separator_witness :
  Name.IsValid (ParseName (lit "host:443/nn/mm:t")) = true /\
  Forall (fun part => ~ In "/" part /\ ~ In "@" part)
    (parts (ParseName (lit "host:443/nn/mm:t"))) /\
  Forall (fun part => ~ In ":" part)
    [Namespace (ParseName (lit "host:443/nn/mm:t"));
     Model (ParseName (lit "host:443/nn/mm:t"));
     Tag (ParseName (lit "host:443/nn/mm:t"));
     RawDigest (ParseName (lit "host:443/nn/mm:t"))].
Proof.
  split; [vm_compute; reflexivity|].
  apply (valid_parts_hold_no_separator (ParseName (lit "host:443/nn/mm:t"))).
  vm_compute; reflexivity.
Defined.

Lemma valid_part_bounds (k : partKind) (x : str) :
  (x <> [] -> isValidPart k x = true) ->
  x <> lit ".." /\ length x <= 350.
Proof.
  destruct x as [|c x];
    [intros _; split; [discriminate | apply Nat.le_0_l]|].
  intros V. assert (V' : isValidPart k (c :: x) = true)
    by (apply V; discriminate).
  rewrite isValidPart_bytes in V'.
  apply andb_true_iff in V'. destruct V' as [Hl Hc].
  apply andb_true_iff in Hc. destruct Hc as [Hc _]. split.
  - intros E. injection E as -> _. discriminate Hc.
  - apply isValidLen_spec in Hl.
    destruct k; unfold lengthWithinBounds in Hl; lia.
Qed.

(** X5: what the fuzz test of the package checks of a valid name holds of
    every valid name: no part is [".."] and no part is longer than 350
    bytes. *)
Theorem valid_parts_bounded (n : Name) :
  Name.IsValid n = true ->
  Forall (fun part => part <> lit ".." /\ length part <= 350) (parts n).
Proof.
  intros V. apply IsValid_parts in V.
  destruct V as (_ & Vh & Vn & Vm & Vt & Vd).
  unfold parts.
  repeat (apply Forall_cons; [eapply valid_part_bounds; eassumption|]).
  apply Forall_nil.
Qed.

Lemma valid_parts_bounded_witness :
  Name.IsValid (ParseNameNoDefaults (lit "h/nn/mm:t@dd")) = true /\
  Forall (fun part => part <> lit ".." /\ length part <= 350)
    (parts (ParseNameNoDefaults (lit "h/nn/mm:t@dd"))).
Proof.
  split; [vm_compute; reflexivity|].
  apply (valid_parts_bounded (ParseNameNoDefaults (lit "h/nn/mm:t@dd"))).
  vm_compute; reflexivity.
Defined.

(** ** From a name to its string and back *)

Lemma cutPromised_found (c : byte) (b a : str) :
  b <> [] -> a <> [] -> ~ In c a ->
  cutPromised (b ++ c :: a) [c] = (b, a, true).
Proof.
  intros Hb Ha Hc. unfold cutPromised.
  rewrite (cutLast_char_last c b a Hc). cbn [negb].
  destruct b; [contradiction|]. destruct a; [contradiction|]. reflexivity.
Qed.

Lemma cutPromised_notfound (c : byte) (s : str) :
  ~ In c s -> cutPromised s [c] = (s, [], false).
Proof.
  intros H. unfold cutPromised. rewrite (cutLast_char_notin c s H).
  reflexivity.
Qed.

(** An optional last part [c :: d] after [x]: the cut gives back [x] and
    [d], and tells whether [d] was there. *)
Lemma cutLast_optional (c : byte) (x d : str) :
  ~ In c x -> ~ In c d ->
  cutLast (x ++ (if isEmpty d then [] else c :: d)) [c]
  = (x, d, negb (isEmpty d)).
Proof.
  intros Hx Hd. destruct d as [|d0 d]; cbn [isEmpty negb].
  - rewrite app_nil_r. apply cutLast_char_notin, Hx.
  - apply cutLast_char_last, Hd.
Qed.

Lemma cutPromised_optional (c : byte) (x t : str) :
  (t = [] -> ~ In c x) -> ~ In c t -> (t <> [] -> x <> []) ->
  cutPromised (x ++ (if isEmpty t then [] else c :: t)) [c]
  = (x, t, negb (isEmpty t)).
Proof.
  intros Hx Ht Hne. destruct t as [|t0 t]; cbn [isEmpty negb].
  - rewrite app_nil_r. apply cutPromised_notfound, Hx. reflexivity.
  - apply cutPromised_found; [apply Hne| |exact Ht]; discriminate.
Qed.

Lemma not_in_app (c : byte) (x y : str) :
  ~ In c x -> ~ In c y -> ~ In c (x ++ y).
Proof. intros Hx Hy H. apply in_app_or in H. tauto. Qed.

Lemma wellShaped_reparses (r : Name) :
  Name.IsValid r = true -> wellShaped r ->
  ParseNameNoDefaults (Name.String r) = r.
Proof.
  intros V (A & B & C). apply IsValid_parts in V.
  destruct r as [h ns m t d]. cbn [Host Namespace Model Tag RawDigest] in *.
  destruct V as (_ & Vh & Vn & Vm & Vt & Vd).
  assert (Kns : kindNamespace <> kindHost) by discriminate.
  assert (Km : kindModel <> kindHost) by discriminate.
  assert (Kt : kindTag <> kindHost) by discriminate.
  pose proof (part_no_slash _ _ Vn) as Sn.
  pose proof (part_no_slash _ _ Vm) as Sm.
  pose proof (part_no_at _ _ Vh) as Ah.
  pose proof (part_no_at _ _ Vn) as An.
  pose proof (part_no_at _ _ Vm) as Am.
  pose proof (part_no_at _ _ Vt) as At.
  pose proof (part_no_at _ _ Vd) as Ad.
  pose proof (part_no_colon _ _ Kns Vn) as Cn.
  pose proof (part_no_colon _ _ Km Vm) as Cm.
  pose proof (part_no_colon _ _ Kt Vt) as Ct.
  assert (Hsep : forall c : byte, ~ In c ["/"] <-> c <> "/").
  { intros c. cbn [In]. intuition congruence. }
  rewrite String_mkName. unfold ParseNameNoDefaults.
  change (lit "@") with ["@"]. change (lit ":") with [":"].
  change (lit "/") with ["/"].
  set (pre := (if isEmpty h then [] else h ++ ["/"])
              ++ (if isEmpty ns then [] else ns ++ ["/"]) ++ m).
  replace ((if isEmpty h then [] else h ++ ["/"])
           ++ (if isEmpty ns then [] else ns ++ ["/"])
           ++ m
           ++ (if isEmpty t then [] else ":" :: t)
           ++ (if isEmpty d then [] else "@" :: d))
    with ((pre ++ (if isEmpty t then [] else ":" :: t))
          ++ (if isEmpty d then [] else "@" :: d))
    by (unfold pre; rewrite <- !app_assoc; reflexivity).
  assert (Apre : ~ In "@" pre).
  { unfold pre. destruct h, ns; cbn [isEmpty];
      repeat apply not_in_app; auto;
      cbn [In]; intuition discriminate. }
  assert (Cpre : t = [] -> ~ In ":" pre).
  { intros Et. specialize (C Et). unfold pre. destruct h, ns; cbn [isEmpty];
      repeat apply not_in_app; auto;
      cbn [In]; intuition discriminate. }
  (* the digest *)
  rewrite cutLast_optional; [|destruct t; cbn [isEmpty];
    [rewrite app_nil_r; exact Apre
    |apply not_in_app; [exact Apre|];
     intros [X | X]; [discriminate X | exact (At X)]] | exact Ad].
  unfold zeroName, setRawDigest. cbn [RawDigest].
  replace (negb (isEmpty d) && isEmpty d) with false
    by (destruct d; reflexivity).
  (* the tag *)
  assert (Npre : m <> [] -> pre <> []).
  { intros Hm E. apply Hm. unfold pre in E.
    apply app_eq_nil in E. destruct E as [_ E].
    apply app_eq_nil in E. tauto. }
  rewrite cutPromised_optional;
    [|exact Cpre | exact Ct
     |intros Ht; apply Npre; intros Em; destruct (B Em); contradiction].
  unfold setTag, setModel, setNamespace, setHost.
  cbn [Host Namespace Model Tag RawDigest].
  (* the model, the namespace and the host *)
  destruct ns as [|n0 ns].
  - destruct h as [|h0 h]; [|exfalso; apply A; [discriminate | reflexivity]].
    unfold pre. cbn [isEmpty app].
    rewrite (cutPromised_notfound "/" m Sm). reflexivity.
  - assert (Nm : m <> []) by (intros Em; destruct (B Em); discriminate).
    destruct h as [|h0 h]; unfold pre; cbn [isEmpty app].
    + replace (n0 :: (ns ++ ["/"]) ++ m) with ((n0 :: ns) ++ "/" :: m)
        by (cbn [app]; rewrite <- !app_assoc; reflexivity).
      rewrite (cutPromised_found "/" (n0 :: ns) m);
        [|discriminate | exact Nm | exact Sm].
      cbn [negb]. rewrite (cutPromised_notfound "/" (n0 :: ns) Sn).
      reflexivity.
    + replace (h0 :: (h ++ ["/"]) ++ n0 :: (ns ++ ["/"]) ++ m)
        with (((h0 :: h) ++ "/" :: n0 :: ns) ++ "/" :: m)
        by (cbn [app]; rewrite <- !app_assoc; reflexivity).
      rewrite (cutPromised_found "/" ((h0 :: h) ++ "/" :: n0 :: ns) m);
        [|discriminate | exact Nm | exact Sm].
      cbn [negb].
      rewrite (cutPromised_found "/" (h0 :: h) (n0 :: ns));
        [|discriminate | discriminate | exact Sn].
      reflexivity.
Qed.

(** X6: a valid, well-shaped name parses back from its string, field for
    field.  (Without the shape the string is ambiguous: a host without a
    namespace is read back as the namespace.) *)
Theorem wellShaped_String_then_parse (r : Name) :
  Name.IsValid r = true -> wellShaped r ->
  ParseNameNoDefaults (Name.String r) = r.
Proof. intros V W. exact (wellShaped_reparses r V W). Qed.

Lemma wellShaped_String_then_parse_witness :
  Name.IsValid (mkName (lit "h:1") (lit "nn") (lit "mm") (lit "t") (lit "dd"))
  = true /\
  wellShaped (mkName (lit "h:1") (lit "nn") (lit "mm") (lit "t") (lit "dd")) /\
  ParseNameNoDefaults
    (Name.String
       (mkName (lit "h:1") (lit "nn") (lit "mm") (lit "t") (lit "dd")))
  = mkName (lit "h:1") (lit "nn") (lit "mm") (lit "t") (lit "dd").
Proof.
  assert (V : Name.IsValid
                (mkName (lit "h:1") (lit "nn") (lit "mm") (lit "t") (lit "dd"))
              = true) by (vm_compute; reflexivity).
  assert (W : wellShaped
                (mkName (lit "h:1") (lit "nn") (lit "mm") (lit "t") (lit "dd"))).
  { unfold wellShaped; simpl; repeat split; discriminate. }
  split; [exact V|]. split; [exact W|].
  apply (wellShaped_String_then_parse _ V W).
Defined.


(** ** Defaults *)

Lemma part_step_skip (k : partKind) (p : str) (rest : bool) :
  p = [] \/ isValidPart k p = true ->
  (if negb (isEmpty p) && negb (isValidPart k p) then false else rest) = rest.
Proof.
  intros [-> | ->]; [reflexivity|]. cbn [negb]. rewrite andb_false_r.
  reflexivity.
Qed.

(** Filling the empty host, namespace and tag of a name from parts that
    are themselves empty or valid does not change whether it is valid. *)
Lemma Merge_IsValid (n o : Name) :
  Host o = [] \/ isValidPart kindHost (Host o) = true ->
  Namespace o = [] \/ isValidPart kindNamespace (Namespace o) = true ->
  Tag o = [] \/ isValidPart kindTag (Tag o) = true ->
  Name.IsValid (Name.Merge n o) = Name.IsValid n.
Proof.
  intros Hh Hn Ht. destruct n as [h ns m t d], o as [ho nso mo to do].
  cbn [Host Namespace Model Tag RawDigest] in *.
  unfold Name.Merge, setHost, setNamespace, setTag, Name.IsValid.
  cbn [Host Namespace Model Tag RawDigest]. rewrite !cmp_Or_pair.
  destruct (isEmpty m && isEmpty d); [reflexivity|].
  unfold Name.partsFrom. cbn [partKind_of_index].
  destruct h, ns, t; cbn [isEmpty negb andb];
    rewrite ?(part_step_skip kindHost ho _ Hh),
            ?(part_step_skip kindNamespace nso _ Hn),
            ?(part_step_skip kindTag to _ Ht);
    reflexivity.
Qed.

(** X7: the defaults neither repair nor spoil a name: a name merged with
    [DefaultName] is valid exactly when it was valid before, so [ParseName]
    and [ParseNameNoDefaults] accept the same strings. *)
Theorem defaults_keep_validity :
  (forall n, Name.IsValid (Name.Merge n DefaultName) = Name.IsValid n) /\
  (forall s,
     Name.IsValid (ParseName s) = Name.IsValid (ParseNameNoDefaults s)).
Proof.
  assert (H : forall n, Name.IsValid (Name.Merge n DefaultName)
                        = Name.IsValid n).
  { intros n. apply Merge_IsValid.
    - right. vm_compute. reflexivity.
    - right. vm_compute. reflexivity.
    - right. vm_compute. reflexivity. }
  split; [exact H|]. intros s. unfold ParseName. apply H.
Qed.

(** X8: merging composes: merging with [b] and then with [c] is merging
    with [b] merged with [c]; merging twice with the same name, or with the
    name itself, changes nothing more. *)
Theorem Merge_composes (a b c : Name) :
  Name.Merge (Name.Merge a b) c = Name.Merge a (Name.Merge b c) /\
  Name.Merge (Name.Merge a b) b = Name.Merge a b /\
  Name.Merge a a = a.
Proof.
  destruct a as [ha na ma ta da], b as [hb nb mb tb db],
    c as [hc nc mc tc dc].
  unfold Name.Merge, setHost, setNamespace, setTag.
  cbn [Host Namespace Model Tag RawDigest]. rewrite !cmp_Or_pair.
  repeat split;
    destruct ha, na, ta; cbn [isEmpty];
    try reflexivity;
    destruct hb, nb, tb; reflexivity.
Qed.

(** X9: a string without ['@'], [':'] or ['/'] is a bare model name:
    [ParseName] puts it under the default host, namespace and tag, writes
    it as ["registry.ollama.ai/library/<s>:latest"], and the name is valid
    exactly when the string is a valid model part. *)
Theorem bare_model_name (s : str) :
  ~ In "@" s -> ~ In ":" s -> ~ In "/" s ->
  ParseNameNoDefaults s = mkName [] [] s [] [] /\
  ParseName s
  = mkName (lit "registry.ollama.ai") (lit "library") s (lit "latest") [] /\
  Name.String (ParseName s)
  = lit "registry.ollama.ai/library/" ++ s ++ lit ":latest" /\
  Name.IsValid (ParseName s) = isValidPart kindModel s.
Proof.
  intros Hat Hcolon Hslash.
  assert (P : ParseNameNoDefaults s = mkName [] [] s [] []).
  { unfold ParseNameNoDefaults.
    change (lit "@") with ["@"]. change (lit ":") with [":"].
    change (lit "/") with ["/"].
    rewrite (cutLast_char_notin "@" s Hat). cbn [andb].
    rewrite (cutPromised_notfound ":" s Hcolon).
    rewrite (cutPromised_notfound "/" s Hslash). reflexivity. }
  assert (Q : ParseName s = mkName (lit "registry.ollama.ai") (lit "library")
                              s (lit "latest") []).
  { unfold ParseName. rewrite P. reflexivity. }
  split; [exact P|]. split; [exact Q|]. rewrite Q. split.
  - rewrite String_mkName. reflexivity.
  - unfold Name.IsValid, Name.partsFrom.
    cbn [Host Namespace Model Tag RawDigest partKind_of_index].
    change (isValidPart kindHost (lit "registry.ollama.ai")) with true.
    change (isValidPart kindNamespace (lit "library")) with true.
    change (isValidPart kindTag (lit "latest")) with true.
    destruct s as [|c s]; [reflexivity|].
    cbn [isEmpty negb andb].
    destruct (isValidPart kindModel (c :: s)); reflexivity.
Qed.

Lemma bare_model_name_witness :
  ~ In "@" (lit "llama3.1") /\ ~ In ":" (lit "llama3.1") /\
  ~ In "/" (lit "llama3.1") /\
  ParseNameNoDefaults (lit "llama3.1") = mkName [] [] (lit "llama3.1") [] [] /\
  ParseName (lit "llama3.1")
  = mkName (lit "registry.ollama.ai") (lit "library") (lit "llama3.1")
      (lit "latest") [] /\
  Name.String (ParseName (lit "llama3.1"))
  = lit "registry.ollama.ai/library/" ++ lit "llama3.1" ++ lit ":latest" /\
  Name.IsValid (ParseName (lit "llama3.1"))
  = isValidPart kindModel (lit "llama3.1").
Proof.
  assert (H1 : ~ In "@" (lit "llama3.1"))
    by (vm_compute; intuition discriminate).
  assert (H2 : ~ In ":" (lit "llama3.1"))
    by (vm_compute; intuition discriminate).
  assert (H3 : ~ In "/" (lit "llama3.1"))
    by (vm_compute; intuition discriminate).
  split; [exact H1|]. split; [exact H2|]. split; [exact H3|].
  apply (bare_model_name (lit "llama3.1") H1 H2 H3).
Defined.

(** ** The kinds of part, compared *)

Lemma forallb_impl {A : Type} (f g : A -> bool) (l : list A) :
  (forall x, f x = true -> g x = true) ->
  forallb f l = true -> forallb g l = true.
Proof.
  intros H. rewrite !forallb_forall. intros Hf x Hx. apply H, Hf, Hx.
Qed.

Lemma isValidPart_weaken (k k' : partKind) (s : str) :
  (isValidLen k s = true -> isValidLen k' s = true) ->
  (forall c, partByteOk k 1 c = true -> partByteOk k' 1 c = true) ->
  isValidPart k s = true -> isValidPart k' s = true.
Proof.
  intros Hlen Hbyte. rewrite !isValidPart_bytes, !andb_true_iff.
  intros [Hl Hb]. split; [apply Hlen, Hl|].
  destruct s as [|c rest]; [reflexivity|].
  apply andb_true_iff in Hb. destruct Hb as [Hc Hr].
  rewrite Hc. cbn [andb]. apply (forallb_impl _ _ _ Hbyte Hr).
Qed.

Lemma laterByte_weaken (k k' : partKind) (c : byte) :
  (k = kindNamespace \/ k' <> kindNamespace) ->
  (k' = kindHost \/ k <> kindHost) ->
  partByteOk k 1 c = true -> partByteOk k' 1 c = true.
Proof.
  intros Hdot Hcolon.
  rewrite !(laterByte_spec _ 0). unfold laterByteAllowed.
  intros [H | [H | [H | [H | [[H Hk] | [H Hk]]]]]]; auto.
  - do 4 right. left. split; [exact H|].
    destruct Hdot as [-> | Hd]; [contradiction | exact Hd].
  - do 5 right. split; [exact H|].
    destruct Hcolon as [-> | Hc]; [reflexivity | contradiction].
Qed.

(** X10: the rules of the kinds are nested: a valid namespace is a valid
    model, model and digest obey the same rule, a valid model is a valid
    tag, and a valid tag is a valid host. *)
Theorem part_kinds_nest (s : str) :
  (isValidPart kindNamespace s = true -> isValidPart kindModel s = true) /\
  isValidPart kindDigest s = isValidPart kindModel s /\
  (isValidPart kindModel s = true -> isValidPart kindTag s = true) /\
  (isValidPart kindTag s = true -> isValidPart kindHost s = true).
Proof.
  split; [|split; [|split]].
  - apply isValidPart_weaken; [auto|].
    intros c. apply laterByte_weaken; [left; reflexivity | right; discriminate].
  - rewrite !isValidPart_bytes. reflexivity.
  - apply isValidPart_weaken.
    + unfold isValidLen. rewrite !andb_true_iff, !Nat.leb_le. lia.
    + intros c. apply laterByte_weaken; right; discriminate.
  - apply isValidPart_weaken.
    + unfold isValidLen. rewrite !andb_true_iff, !Nat.leb_le. lia.
    + intros c. apply laterByte_weaken;
        [right; discriminate | left; reflexivity].
Qed.

Lemma part_kinds_nest_witness :
  isValidPart kindNamespace (lit "library") = true /\
  isValidPart kindModel (lit "library") = true /\
  isValidPart kindTag (lit "library") = true /\
  isValidPart kindHost (lit "library") = true.
Proof.
  destruct (part_kinds_nest (lit "library")) as (H1 & _ & H2 & H3).
  assert (V : isValidPart kindNamespace (lit "library") = true)
    by (vm_compute; reflexivity).
  split; [exact V|]. split; [exact (H1 V)|].
  split; [exact (H2 (H1 V)) | exact (H3 (H2 (H1 V)))].
Defined.

(** X11: [IsValidShort(namespace, model)] is true exactly when the
    namespace is not empty and the name made of this namespace and model is
    valid. *)
Theorem IsValidShort_as_IsValid (namespace model : str) :
  IsValidShort namespace model
  = negb (isEmpty namespace)
    && Name.IsValid (mkName [] namespace model [] []).
Proof.
  destruct namespace as [|c ns].
  - unfold IsValidShort.
    change (isValidPart kindNamespace []) with false. reflexivity.
  - cbn [isEmpty negb andb].
    apply IsValidShort_nonempty_namespace. discriminate.
Qed.

(** ** Digests and their strings *)

Lemma encode_byte (v : byte) :
  exists p q a b,
    EncodeToString [v] = [p; q] /\
    isLowerHex p = true /\ isLowerHex q = true /\
    fromHexChar p = Some a /\ fromHexChar q = Some b /\
    ascii_of_N (N.lor (N.shiftl a 4) b) = v.
Proof.
  destruct v as [[] [] [] [] [] [] [] []];
    do 4 eexists; repeat split; vm_compute; reflexivity.
Qed.

Lemma encode_spec (bytes : list byte) :
  forallb isLowerHex (EncodeToString bytes) = true /\
  length (EncodeToString bytes) = 2 * length bytes /\
  hexBytes (EncodeToString bytes) = bytes.
Proof.
  induction bytes as [|v bytes (IH1 & IH2 & IH3)];
    [repeat split; reflexivity|].
  destruct (encode_byte v) as (p & q & a & b & E & Hp & Hq & Ea & Eb & Ev).
  change (EncodeToString (v :: bytes))
    with (EncodeToString [v] ++ EncodeToString bytes).
  rewrite E. cbn [app forallb hexBytes length].
  rewrite Hp, Hq, IH1, IH2, Ea, Eb, Ev, IH3.
  split; [reflexivity | split; [lia | reflexivity]].
Qed.

(** X12: a sha256 digest parses back from its string: for every digest
    with the sha256 type (and the 32 bytes of hash the array type gives it),
    [ParseDigest(d.String())] is [d]. *)
Theorem Digest_String_then_parse (d : Digest) :
  Type_ d = DigestTypeSHA256 -> length (Hash d) = 32 ->
  ParseDigest (Digest.String d) = Ok d.
Proof.
  destruct d as [ty hash]. cbn [Type_ Hash]. intros -> Hlen.
  destruct (encode_spec hash) as (Hhex & Hl & Hb).
  unfold Digest.String. cbn [Type_ Hash app].
  change (DigestType_String DigestTypeSHA256) with (lit "sha256").
  replace ((lit "sha256" ++ ["-"]) ++ EncodeToString hash)
    with (lit "sha256" ++ "-" :: EncodeToString hash)
    by (rewrite <- app_assoc; reflexivity).
  destruct (ParseDigest_lower "-" (EncodeToString hash)) as [P _];
    [right; reflexivity | rewrite Hl, Hlen; reflexivity | exact Hhex|].
  rewrite P, Hb. reflexivity.
Qed.

Lemma Digest_String_then_parse_witness :
  Type_ (mkDigest DigestTypeSHA256 (hexBytes validSHA256Hex))
  = DigestTypeSHA256 /\
  length (Hash (mkDigest DigestTypeSHA256 (hexBytes validSHA256Hex))) = 32 /\
  ParseDigest
    (Digest.String (mkDigest DigestTypeSHA256 (hexBytes validSHA256Hex)))
  = Ok (mkDigest DigestTypeSHA256 (hexBytes validSHA256Hex)).
Proof.
  split; [reflexivity|]. split; [vm_compute; reflexivity|].
  apply (Digest_String_then_parse
           (mkDigest DigestTypeSHA256 (hexBytes validSHA256Hex)));
    vm_compute; reflexivity.
Defined.

Lemma pair_ind (P : str -> Prop) :
  P [] -> (forall p, P [p]) ->
  (forall p q rest, P rest -> P (p :: q :: rest)) ->
  forall s, P s.
Proof.
  intros H0 H1 H2 s.
  enough (H : P s /\ forall x, P (x :: s)) by apply H.
  induction s as [|y s [IHs IHx]].
  - split; [exact H0 | exact H1].
  - split; [apply IHx|]. intros x. apply H2, IHs.
Qed.

(** When [hex.Decode] returns without error, the source was an even
    number of hexadecimal digits, and their bytes are in [dst] from index
    [i] up to the count returned. *)
Lemma hexDecode_sound (src : list byte) :
  forall (dst : list byte) (i : nat) (dst' : list byte) (n : nat),
    i <= length dst ->
    hexDecode dst i src = Ok (dst', n, None) ->
    i <= n /\ n <= length dst /\ length src = 2 * (n - i) /\
    forallb isHex src = true /\
    dst' = firstn i dst ++ hexBytes src ++ skipn n dst.
Proof.
  induction src as [|p|p q rest IH] using pair_ind;
    intros dst i dst' n Hi H.
  - cbn [hexDecode] in H. injection H as <- <-.
    rewrite Nat.sub_diag, firstn_skipn. repeat split; auto.
  - cbn [hexDecode] in H. destruct (fromHexChar p); discriminate H.
  - cbn [hexDecode hexBytes forallb] in *. unfold isHex at 1 2.
    destruct (fromHexChar p) as [a|]; [|discriminate H].
    destruct (fromHexChar q) as [b|]; [|discriminate H].
    set (v := ascii_of_N (N.lor (N.shiftl a 4) b)) in *.
    unfold store in H.
    destruct (Nat.ltb_spec i (length dst)) as [Hlt | Hge];
      [|discriminate H].
    cbn [bind] in H.
    assert (Hf : length (firstn i dst) = i) by (rewrite length_firstn; lia).
    assert (Hl : length (firstn i dst ++ v :: skipn (S i) dst) = length dst).
    { rewrite length_app, Hf. cbn [length]. rewrite length_skipn. lia. }
    apply IH in H; [|rewrite Hl; lia].
    destruct H as (H1 & H2 & H3 & H4 & H5). rewrite Hl in H2.
    repeat split; [lia | exact H2 | simpl length; lia | exact H4|].
    rewrite H5.
    replace (firstn (S i) (firstn i dst ++ v :: skipn (S i) dst))
      with (firstn i dst ++ [v]).
    2:{ rewrite firstn_app, Hf.
        rewrite (firstn_all2 (firstn i dst)) by lia.
        replace (S i - i) with 1 by lia. reflexivity. }
    replace (skipn n (firstn i dst ++ v :: skipn (S i) dst))
      with (skipn n dst).
    2:{ rewrite skipn_app, Hf.
        rewrite (skipn_all2 (firstn i dst)) by lia.
        replace (n - i) with (S (n - S i)) by lia.
        change (skipn (S (n - S i)) (v :: skipn (S i) dst))
          with (skipn (n - S i) (skipn (S i) dst)).
        rewrite skipn_skipn. cbn [app]. f_equal. lia. }
    rewrite <- app_assoc. reflexivity.
Qed.

(** What [ParseDigest] does with the hash segment once the type is known
    to be ["sha256"]. *)
Lemma ParseDigest_hash (hash : str) (d : Digest) :
  (r <- hexDecode (Hash zeroDigest) 0 hash ;;
   let '(h, n, err) := r in
   match err with
   | Some _ => Ok zeroDigest
   | None =>
       if negb (n =? 32) then Ok zeroDigest
       else Ok (mkDigest DigestTypeSHA256 h)
   end) = Ok d ->
  d = zeroDigest \/
  (length hash = 64 /\ forallb isHex hash = true /\
   d = mkDigest DigestTypeSHA256 (hexBytes hash)).
Proof.
  destruct (hexDecode (Hash zeroDigest) 0 hash) as [[[h n] err]|p] eqn:D;
    cbn [bind]; [|discriminate].
  destruct err as [e|]; [intros H; injection H as <-; left; reflexivity|].
  destruct (Nat.eqb_spec n 32) as [-> | Hn]; cbn [negb];
    intros H; injection H as <-; [right | left; reflexivity].
  apply hexDecode_sound in D; [|apply Nat.le_0_l].
  destruct D as (_ & _ & Hl & Hh & ->).
  change (skipn 32 (Hash zeroDigest)) with (@nil ascii).
  cbn [firstn app]. rewrite app_nil_r. auto.
Qed.

Lemma ParseDigest_Ok_cases (s : str) (d : Digest) :
  ParseDigest s = Ok d ->
  d = zeroDigest \/
  exists sep h,
    (sep = ":" \/ (sep = "-" /\ ~ In ":" s)) /\
    s = lit "sha256" ++ sep :: h /\
    length h = 64 /\ forallb isHex h = true /\
    d = mkDigest DigestTypeSHA256 (hexBytes h).
Proof.
  unfold ParseDigest.
  change (lit ":") with [":"]. change (lit "-") with ["-"].
  destruct (cutLast s [":"]) as [[typ hash] ok] eqn:E1.
  destruct ok; cbn [negb].
  - apply cutLast_found_inv in E1. destruct E1 as [Es _].
    destruct (str_eqb typ (lit "sha256")) eqn:Et; cbn [negb];
      [|intros H; injection H as <-; left; reflexivity].
    apply str_eqb_eq in Et. subst typ. intros H.
    apply ParseDigest_hash in H.
    destruct H as [H | (Hl & Hh & Hd)]; [left; exact H | right].
    exists ":", hash. auto 6.
  - apply cutLast_absent_inv in E1. destruct E1 as (_ & _ & Hcolon).
    destruct (cutLast s ["-"]) as [[typ' hash'] ok'] eqn:E2.
    destruct ok'; cbn [negb];
      [|intros H; injection H as <-; left; reflexivity].
    apply cutLast_found_inv in E2. destruct E2 as [Es _].
    destruct (str_eqb typ' (lit "sha256")) eqn:Et; cbn [negb];
      [|intros H; injection H as <-; left; reflexivity].
    apply str_eqb_eq in Et. subst typ'. intros H.
    apply ParseDigest_hash in H.
    destruct H as [H | (Hl & Hh & Hd)]; [left; exact H | right].
    exists "-", hash'. auto 7.
Qed.

(** X13: [ParseDigest] gives a valid digest only for ["sha256"], a [':']
    or ['-'], and exactly 64 hexadecimal digits (of either case), and the
    hash is then the bytes these digits denote. *)
Theorem valid_digest_only_from_sha256_hex (s : str) (d : Digest) :
  ParseDigest s = Ok d -> Digest.IsValid d = true ->
  exists sep h,
    (sep = ":" \/ sep = "-") /\
    s = lit "sha256" ++ sep :: h /\
    length h = 64 /\ forallb isHex h = true /\
    Hash d = hexBytes h.
Proof.
  intros P V. apply ParseDigest_Ok_cases in P.
  destruct P as [-> | (sep & h & Hsep & Es & Hl & Hh & ->)];
    [discriminate V|].
  exists sep, h. repeat split; auto. tauto.
Qed.

Lemma valid_digest_only_from_sha256_hex_witness :
  ParseDigest (lit "sha256:" ++ validSHA256Hex)
  = Ok (mkDigest DigestTypeSHA256 (hexBytes validSHA256Hex)) /\
  Digest.IsValid (mkDigest DigestTypeSHA256 (hexBytes validSHA256Hex))
  = true /\
  exists sep h,
    (sep = ":" \/ sep = "-") /\
    lit "sha256:" ++ validSHA256Hex = lit "sha256" ++ sep :: h /\
    length h = 64 /\ forallb isHex h = true /\
    Hash (mkDigest DigestTypeSHA256 (hexBytes validSHA256Hex)) = hexBytes h.
Proof.
  assert (P : ParseDigest (lit "sha256:" ++ validSHA256Hex)
              = Ok (mkDigest DigestTypeSHA256 (hexBytes validSHA256Hex)))
    by (vm_compute; reflexivity).
  assert (V : Digest.IsValid
                (mkDigest DigestTypeSHA256 (hexBytes validSHA256Hex)) = true)
    by (vm_compute; reflexivity).
  split; [exact P|]. split; [exact V|].
  apply (valid_digest_only_from_sha256_hex _ _ P V).
Defined.

(** X14: [ParseDigest] returns for every input of at most 72 bytes
    (["sha256"], a separator and 65 bytes of hash): the decoder then stays
    inside the 32-byte array.  One byte more can make it panic. *)
Theorem ParseDigest_returns_on_short_input (s : str) :
  length s <= 72 -> exists d, ParseDigest s = Ok d.
Proof.
  intros Hlen.
  assert (T : forall typ hash sep,
             s = typ ++ [sep] ++ hash ->
             exists d,
               (if negb (str_eqb typ (lit "sha256")) then Ok zeroDigest
                else
                  r <- hexDecode (Hash zeroDigest) 0 hash ;;
                  let '(h, n, err) := r in
                  match err with
                  | Some _ => Ok zeroDigest
                  | None =>
                      if negb (n =? 32) then Ok zeroDigest
                      else Ok (mkDigest DigestTypeSHA256 h)
                  end) = Ok d).
  { intros typ hash sep Es.
    destruct (str_eqb typ (lit "sha256")) eqn:Et; cbn [negb];
      [|eexists; reflexivity].
    apply str_eqb_eq in Et. subst typ.
    assert (Hh : length hash <= 2 * 32 + 1).
    { rewrite Es, !length_app in Hlen. cbn [length lit] in Hlen.
      simpl in Hlen. lia. }
    destruct (hexDecode_fits 32 hash (Hash zeroDigest) 0 Hh)
      as [[[h n] err] D]; [cbn; lia|].
    rewrite D. cbn [bind].
    destruct err; [eexists; reflexivity|].
    destruct (negb (n =? 32)); eexists; reflexivity. }
  unfold ParseDigest.
  change (lit ":") with [":"]. change (lit "-") with ["-"].
  destruct (cutLast s [":"]) as [[typ hash] ok] eqn:E1.
  destruct ok; cbn [negb].
  - apply cutLast_spec in E1.
    destruct E1 as [(C & _) | (_ & Es)]; [discriminate|].
    apply (T typ hash ":" Es).
  - destruct (cutLast s ["-"]) as [[typ' hash'] ok'] eqn:E2.
    destruct ok'; cbn [negb]; [|eexists; reflexivity].
    apply cutLast_spec in E2.
    destruct E2 as [(C & _) | (_ & Es)]; [discriminate|].
    apply (T typ' hash' "-" Es).
Qed.

Lemma ParseDigest_returns_on_short_input_witness :
  length (lit "sha256:" ++ validSHA256Hex ++ lit "x") <= 72 /\
  exists d, ParseDigest (lit "sha256:" ++ validSHA256Hex ++ lit "x") = Ok d.
Proof.
  assert (H : length (lit "sha256:" ++ validSHA256Hex ++ lit "x") <= 72)
    by (vm_compute; lia).
  split; [exact H|].
  apply (ParseDigest_returns_on_short_input _ H).
Defined.

(** X15: a valid name whose digest parses to a valid digest carries it in
    the ['-'] form: its raw digest is ["sha256-"] and 64 hexadecimal
    digits.  (The [':'] form is a valid digest for [ParseDigest] but not a
    valid digest part of a name.) *)
Theorem valid_name_digest_is_dashed (n : Name) (d : Digest) :
  Name.IsValid n = true ->
  Name_Digest n = Ok d -> Digest.IsValid d = true ->
  exists h,
    RawDigest n = lit "sha256-" ++ h /\
    length h = 64 /\ forallb isHex h = true /\ Hash d = hexBytes h.
Proof.
  intros Vn P Vd. unfold Name_Digest in P.
  apply IsValid_parts in Vn. destruct Vn as (_ & _ & _ & _ & _ & Hd).
  assert (Hcolon : ~ In ":" (RawDigest n))
    by (apply (part_no_colon kindDigest); [discriminate | exact Hd]).
  apply ParseDigest_Ok_cases in P.
  destruct P as [-> | (sep & h & Hsep & Es & Hl & Hh & ->)];
    [discriminate Vd|].
  destruct Hsep as [-> | [-> _]].
  - exfalso. apply Hcolon. rewrite Es. apply in_or_app. right. left.
    reflexivity.
  - exists h. auto.
Qed.

Lemma valid_name_digest_is_dashed_witness :
  let n := ParseNameNoDefaults (lit "mm@sha256-" ++ validSHA256Hex) in
  let d := mkDigest DigestTypeSHA256 (hexBytes validSHA256Hex) in
  Name.IsValid n = true /\ Name_Digest n = Ok d /\
  Digest.IsValid d = true /\
  exists h,
    RawDigest n = lit "sha256-" ++ h /\
    length h = 64 /\ forallb isHex h = true /\ Hash d = hexBytes h.
Proof.
  intros n d.
  assert (V : Name.IsValid n = true) by (vm_compute; reflexivity).
  assert (P : Name_Digest n = Ok d) by (vm_compute; reflexivity).
  assert (W : Digest.IsValid d = true) by (vm_compute; reflexivity).
  split; [exact V|]. split; [exact P|]. split; [exact W|].
  apply (valid_name_digest_is_dashed n d V P W).
Defined.

Lemma lowerHex_later_ok (k : partKind) (c : byte) :
  isLowerHex c = true -> partByteOk k 1 c = true.
Proof.
  destruct c as [[] [] [] [] [] [] [] []]; intros H;
    try (vm_compute in H; discriminate H);
    destruct k; reflexivity.
Qed.

(** X16: the string of a digest is always acceptable as the digest part
    of a name: for every digest (with its 32 bytes of hash),
    [isValidPart(kindDigest, d.String())] is true. *)
Theorem Digest_String_is_valid_part (d : Digest) :
  length (Hash d) = 32 ->
  isValidPart kindDigest (Digest.String d) = true.
Proof.
  destruct d as [ty hash]. cbn [Hash]. intros Hlen.
  destruct (encode_spec hash) as (Hhex & Hl & _).
  assert (Hr : forallb (partByteOk kindDigest 1) (EncodeToString hash) = true).
  { apply (forallb_impl isLowerHex); [|exact Hhex].
    apply lowerHex_later_ok. }
  unfold Digest.String, DigestType_String. cbn [Type_ Hash app].
  rewrite isValidPart_bytes.
  destruct (ty =? DigestTypeSHA256)%Z.
  - apply andb_true_iff. split.
    + unfold isValidLen. rewrite !length_app, Hl, Hlen. reflexivity.
    + cbn [lit list_ascii_of_string app forallb]. rewrite Hr.
      reflexivity.
  - apply andb_true_iff. split.
    + unfold isValidLen. rewrite !length_app, Hl, Hlen. reflexivity.
    + cbn [lit list_ascii_of_string app forallb]. rewrite Hr.
      reflexivity.
Qed.

Lemma Digest_String_is_valid_part_witness :
  length (Hash zeroDigest) = 32 /\
  isValidPart kindDigest (Digest.String zeroDigest) = true.
Proof.
  split; [reflexivity|].
  apply (Digest_String_is_valid_part zeroDigest). reflexivity.
Defined.

(** ** The string of a name with its defaults *)

(** X17: the string of a name parsed with defaults is stable: when
    [ParseName(s)] is valid and has a model, parsing its string again, with
    or without defaults, gives the same name. *)
Theorem ParseName_String_stable (s : str) :
  Name.IsValid (ParseName s) = true -> Model (ParseName s) <> [] ->
  ParseNameNoDefaults (Name.String (ParseName s)) = ParseName s /\
  ParseName (Name.String (ParseName s)) = ParseName s.
Proof.
  intros V Hm.
  assert (W : wellShaped (ParseName s)).
  { revert Hm. unfold ParseName, wellShaped, Name.Merge, setHost,
      setNamespace, setTag.
    cbn [Host Namespace Model Tag RawDigest DefaultName].
    rewrite !cmp_Or_pair. intros Hm.
    split; [intros _; destruct (Namespace (ParseNameNoDefaults s));
            discriminate|].
    split; [intros C; contradiction|].
    intros C. destruct (Tag (ParseNameNoDefaults s)); discriminate C. }
  pose proof (wellShaped_reparses (ParseName s) V W) as R.
  split; [exact R|].
  unfold ParseName at 1. rewrite R. unfold ParseName.
  destruct (ParseNameNoDefaults s) as [h ns m t d].
  unfold Name.Merge, setHost, setNamespace, setTag.
  cbn [Host Namespace Model Tag RawDigest DefaultName].
  rewrite !cmp_Or_pair. destruct h, ns, t; reflexivity.
Qed.

Lemma ParseName_String_stable_witness :
  Name.IsValid (ParseName (lit "mistral")) = true /\
  Model (ParseName (lit "mistral")) <> [] /\
  ParseNameNoDefaults (Name.String (ParseName (lit "mistral")))
  = ParseName (lit "mistral") /\
  ParseName (Name.String (ParseName (lit "mistral")))
  = ParseName (lit "mistral").
Proof.
  assert (V : Name.IsValid (ParseName (lit "mistral")) = true)
    by (vm_compute; reflexivity).
  assert (M : Model (ParseName (lit "mistral")) <> [])
    by (vm_compute; discriminate).
  split; [exact V|]. split; [exact M|].
  apply (ParseName_String_stable (lit "mistral") V M).
Defined.
